(** * Binomial (Cox-Ross-Rubinstein) option pricing: model and properties

    Shallow embedding of [binomial_option_pricing_model.py]
    ([BinomialOptionPricing.run]) and of [binomial_option_pricing_app.py]
    ([BinomialOptionPricing.calculate_prices], [plot_heatmap]).

    Numbers.  The program computes with Python floats and numpy float64
    scalars.  They are modelled by [npfloat]: a finite value is a real
    number, and the three IEEE 754 special values keep their IEEE
    behaviour.  This matters for the code: [np.sqrt] and [np.exp] return
    numpy scalars, and arithmetic on numpy scalars never raises; a zero
    divisor yields an infinity or NaN (numpy only emits a RuntimeWarning).
    The one division between plain Python numbers,
    [time_to_maturity / steps], raises [ZeroDivisionError] on a zero divisor.

    Two arithmetics are used on finite values.  The first is exact: no
    rounding, no overflow.  It serves the properties that the text of the
    program decides, where rounding acts alike on both sides of the
    statement.  The second, in module [Rounded], rounds the result of every
    operation; properties of the numbers themselves (a sign, an ordering)
    are proved over it, for every arithmetic that satisfies [float_laws],
    which IEEE 754 double precision does ([binary64_float_laws]).

    Arrays.  A numpy array is a list updated by index; an index outside
    [-len, len) raises [IndexError], a negative index counts from the end.
    [np.zeros] is modelled for every length that is not negative: the
    limits of the allocator are not. *)

From Stdlib Require Import Reals Lra Lia ZArith.
From stdpp Require Import base list.

Open Scope R_scope.

(** ** Numbers *)

Inductive npfloat : Type :=
| Fin (x : R)
| PInf
| NInf
| NaN.

Inductive sgn : Type := Neg | Zero | Pos.

Definition Rsgn (x : R) : sgn :=
  if Rlt_dec 0 x then Pos else if Rlt_dec x 0 then Neg else Zero.

(** The infinity obtained from a non-zero sign; a zero sign gives NaN
    (as in [0 * inf] and [0 / 0]). *)
Definition inf_of (s : sgn) : npfloat :=
  match s with Pos => PInf | Neg => NInf | Zero => NaN end.

Definition fneg (a : npfloat) : npfloat :=
  match a with
  | Fin x => Fin (- x)
  | PInf => NInf
  | NInf => PInf
  | NaN => NaN
  end.

Definition fadd (a b : npfloat) : npfloat :=
  match a, b with
  | NaN, _ | _, NaN => NaN
  | Fin x, Fin y => Fin (x + y)
  | PInf, NInf | NInf, PInf => NaN
  | PInf, _ | _, PInf => PInf
  | NInf, _ | _, NInf => NInf
  end.

Definition fsub (a b : npfloat) : npfloat := fadd a (fneg b).

Definition fmul (a b : npfloat) : npfloat :=
  match a, b with
  | NaN, _ | _, NaN => NaN
  | Fin x, Fin y => Fin (x * y)
  | Fin x, PInf | PInf, Fin x => inf_of (Rsgn x)
  | Fin x, NInf | NInf, Fin x => inf_of (Rsgn (- x))
  | PInf, PInf | NInf, NInf => PInf
  | PInf, NInf | NInf, PInf => NInf
  end.

(** numpy scalar division: no exception on a zero divisor. *)
Definition fdiv (a b : npfloat) : npfloat :=
  match a, b with
  | NaN, _ | _, NaN => NaN
  | Fin x, Fin y => if Req_dec_T y 0 then inf_of (Rsgn x) else Fin (x / y)
  | Fin _, (PInf | NInf) => Fin 0
  | PInf, Fin y => if Rlt_dec y 0 then NInf else PInf
  | NInf, Fin y => if Rlt_dec y 0 then PInf else NInf
  | (PInf | NInf), (PInf | NInf) => NaN
  end.

(** [np.exp] *)
Definition fexp (a : npfloat) : npfloat :=
  match a with
  | Fin x => Fin (exp x)
  | PInf => PInf
  | NInf => Fin 0
  | NaN => NaN
  end.

(** [np.sqrt]: NaN on a negative argument. *)
Definition fsqrt (a : npfloat) : npfloat :=
  match a with
  | Fin x => if Rlt_dec x 0 then NaN else Fin (sqrt x)
  | PInf => PInf
  | NInf => NaN
  | NaN => NaN
  end.

Fixpoint fpow_nat (a : npfloat) (n : nat) : npfloat :=
  match n with
  | O => Fin 1
  | S n' => fmul a (fpow_nat a n')
  end.

(** [a ** n] for an integer exponent [n]. *)
Definition fpow (a : npfloat) (n : Z) : npfloat :=
  if (0 <=? n)%Z then fpow_nat a (Z.to_nat n)
  else fdiv (Fin 1) (fpow_nat a (Z.to_nat (- n))).

(** [a < b]; every comparison with NaN is false. *)
Definition flt (a b : npfloat) : bool :=
  match a, b with
  | NaN, _ | _, NaN => false
  | Fin x, Fin y => if Rlt_dec x y then true else false
  | _, NInf => false
  | NInf, _ => true
  | PInf, _ => false
  | _, PInf => true
  end.

(** [a == b] *)
Definition feq (a b : npfloat) : bool :=
  match a, b with
  | Fin x, Fin y => if Req_dec_T x y then true else false
  | PInf, PInf | NInf, NInf => true
  | _, _ => false
  end.

Definition fgt (a b : npfloat) : bool := flt b a.
Definition fle (a b : npfloat) : bool := flt a b || feq a b.
Definition fge (a b : npfloat) : bool := fle b a.

(** Python's builtin [max(0, x)]: it keeps its first argument unless the
    second compares greater, so [max(0, nan)] is [0]. *)
Definition pymax0 (x : npfloat) : npfloat :=
  if fgt x (Fin 0) then x else Fin 0.

(** A special value: an infinity or NaN. *)
Definition nonfinite (a : npfloat) : Prop := a = PInf \/ a = NInf \/ a = NaN.

(** NaN or a finite value that is not negative. *)
Definition nan_or_nonneg (a : npfloat) : Prop :=
  a = NaN \/ exists x, a = Fin x /\ 0 <= x.

(** ** Exceptions and the error monad *)

Inductive exn : Type :=
| ZeroDivisionError
| IndexError
| ValueError
| AttributeError
| OverflowError.

Inductive result (A : Type) : Type :=
| Ok (a : A)
| Raise (e : exn).
Arguments Ok {A} a.
Arguments Raise {A} e.

Definition bind {A B : Type} (c : result A) (k : A -> result B) : result B :=
  match c with
  | Ok a => k a
  | Raise e => Raise e
  end.

Declare Scope result_scope.
Delimit Scope result_scope with result.
Notation "x <- c ;; k" := (bind c (fun x => k))
  (at level 100, c at next level, right associativity) : result_scope.
Open Scope result_scope.

(** Python [a / n] between a float and an int. *)
Definition py_truediv (a : npfloat) (n : Z) : result npfloat :=
  if (n =? 0)%Z then Raise ZeroDivisionError else Ok (fdiv a (Fin (IZR n))).

(** ** Arrays and loops *)

(** [np.zeros(n)] *)
Definition np_zeros (n : Z) : result (list npfloat) :=
  if (n <? 0)%Z then Raise ValueError else Ok (replicate (Z.to_nat n) (Fin 0)).

(** Position designated by index [i] in an array of length [len]. *)
Definition np_index (len : nat) (i : Z) : result nat :=
  if ((0 <=? i) && (i <? Z.of_nat len))%Z then Ok (Z.to_nat i)
  else if ((- Z.of_nat len <=? i) && (i <? 0))%Z then Ok (Z.to_nat (Z.of_nat len + i))
  else Raise IndexError.

Definition getitem {A : Type} (a : list A) (i : Z) : result A :=
  k <- np_index (length a) i ;;
  match a !! k with
  | Some x => Ok x
  | None => Raise IndexError
  end.

Definition setitem {A : Type} (a : list A) (i : Z) (v : A) : result (list A) :=
  k <- np_index (length a) i ;;
  Ok (<[k := v]> a).

(** [range(n)] *)
Definition range (n : Z) : list Z := Z.of_nat <$> seq 0 (Z.to_nat n).

(** [range(start, -1, -1)] *)
Definition range_down (start : Z) : list Z := reverse (range (start + 1)).

(** [enumerate(l)] *)
Definition enumerate {A : Type} (l : list A) : list (Z * A) :=
  zip (range (Z.of_nat (length l))) l.

(** [for x in l: body], the loop body transforming the mutated variables. *)
Fixpoint for_ {A S : Type} (l : list A) (body : A -> S -> result S) (s : S) : result S :=
  match l with
  | [] => Ok s
  | x :: l' => s' <- body x s ;; for_ l' body s'
  end.

(** ** The pricing object *)

(** An instance of [BinomialOptionPricing]: the six attributes set by
    [__init__] and the six result attributes, absent until a method
    assigns them. *)
Record BinomialOptionPricing : Type := {
  time_to_maturity : npfloat;
  strike : npfloat;
  current_price : npfloat;
  volatility : npfloat;
  interest_rate : npfloat;
  steps : Z;
  call_price : option npfloat;
  put_price : option npfloat;
  call_delta : option npfloat;
  put_delta : option npfloat;
  call_gamma : option npfloat;
  put_gamma : option npfloat
}.

Definition __init__ (time_to_maturity strike current_price volatility
                     interest_rate : npfloat) (steps : Z) : BinomialOptionPricing :=
  {| time_to_maturity := time_to_maturity; strike := strike;
     current_price := current_price; volatility := volatility;
     interest_rate := interest_rate; steps := steps;
     call_price := None; put_price := None; call_delta := None;
     put_delta := None; call_gamma := None; put_gamma := None |}.

Definition with_results (self : BinomialOptionPricing)
    (cp pp cd pd cg pg : option npfloat) : BinomialOptionPricing :=
  {| time_to_maturity := time_to_maturity self; strike := strike self;
     current_price := current_price self; volatility := volatility self;
     interest_rate := interest_rate self; steps := steps self;
     call_price := cp; put_price := pp; call_delta := cd;
     put_delta := pd; call_gamma := cg; put_gamma := pg |}.

Definition set_call_price (v : npfloat) (self : BinomialOptionPricing) :=
  with_results self (Some v) (put_price self) (call_delta self)
    (put_delta self) (call_gamma self) (put_gamma self).
Definition set_put_price (v : npfloat) (self : BinomialOptionPricing) :=
  with_results self (call_price self) (Some v) (call_delta self)
    (put_delta self) (call_gamma self) (put_gamma self).
Definition set_call_delta (v : npfloat) (self : BinomialOptionPricing) :=
  with_results self (call_price self) (put_price self) (Some v)
    (put_delta self) (call_gamma self) (put_gamma self).
Definition set_put_delta (v : npfloat) (self : BinomialOptionPricing) :=
  with_results self (call_price self) (put_price self) (call_delta self)
    (Some v) (call_gamma self) (put_gamma self).
Definition set_call_gamma (v : npfloat) (self : BinomialOptionPricing) :=
  with_results self (call_price self) (put_price self) (call_delta self)
    (put_delta self) (Some v) (put_gamma self).
Definition set_put_gamma (v : npfloat) (self : BinomialOptionPricing) :=
  with_results self (call_price self) (put_price self) (call_delta self)
    (put_delta self) (call_gamma self) (Some v).

(** A method: it may mutate [self] and either returns or raises; the
    mutations made before an exception remain. *)
Definition method (A : Type) : Type :=
  BinomialOptionPricing -> BinomialOptionPricing * result A.

Definition mbind {A B : Type} (c : method A) (k : A -> method B) : method B :=
  fun self =>
    match c self with
    | (self', Ok a) => k a self'
    | (self', Raise e) => (self', Raise e)
    end.

Definition lift {A : Type} (c : result A) : method A := fun self => (self, c).

Definition getattr {A : Type} (f : BinomialOptionPricing -> A) : method A :=
  fun self => (self, Ok (f self)).

Definition setattr (f : BinomialOptionPricing -> BinomialOptionPricing) : method unit :=
  fun self => (f self, Ok tt).

Definition mreturn {A : Type} (a : A) : method A := fun self => (self, Ok a).

Declare Scope method_scope.
Delimit Scope method_scope with method.
Notation "x <~ c ;; k" := (mbind c (fun x => k))
  (at level 100, c at next level, right associativity) : method_scope.
Open Scope method_scope.

(** ** [BinomialOptionPricing.run] (binomial_option_pricing_model.py) *)

Definition run : method unit :=
  time_to_maturity <~ getattr time_to_maturity ;;
  strike <~ getattr strike ;;
  current_price <~ getattr current_price ;;
  volatility <~ getattr volatility ;;
  interest_rate <~ getattr interest_rate ;;
  steps <~ getattr steps ;;
  (* Time step and the up/down factor (u/d) *)
  dt <~ lift (py_truediv time_to_maturity steps) ;;
  let u := fexp (fmul volatility (fsqrt dt)) in
  let d := fdiv (Fin 1) u in
  let q := fdiv (fsub (fexp (fmul interest_rate dt)) d) (fsub u d) in
  (* Initialize the option prices at the final step (maturity) *)
  option_prices <~ lift (np_zeros (steps + 1)) ;;
  option_prices <~ lift
    (for_ (range (steps + 1)) (fun i option_prices =>
       setitem option_prices i
         (pymax0 (fsub (fmul (fmul current_price (fpow u i)) (fpow d (steps - i)))
                       strike)))
     option_prices) ;;
  (* Backward induction to calculate option price at the initial step *)
  option_prices <~ lift
    (for_ (range_down (steps - 1)) (fun j option_prices =>
       for_ (range (j + 1)) (fun i option_prices =>
         up <- getitem option_prices (i + 1) ;;
         cur <- getitem option_prices i ;;
         setitem option_prices i
           (fmul (fexp (fmul (fneg interest_rate) dt))
                 (fadd (fmul q up) (fmul (fsub (Fin 1) q) cur))))
       option_prices)
     option_prices) ;;
  call_price <~ lift (getitem option_prices 0) ;;
  (* For put option *)
  option_prices <~ lift (np_zeros (steps + 1)) ;;
  option_prices <~ lift
    (for_ (range (steps + 1)) (fun i option_prices =>
       setitem option_prices i
         (pymax0 (fsub strike
                       (fmul (fmul current_price (fpow u i)) (fpow d (steps - i))))))
     option_prices) ;;
  (* Backward induction for put option *)
  option_prices <~ lift
    (for_ (range_down (steps - 1)) (fun j option_prices =>
       for_ (range (j + 1)) (fun i option_prices =>
         up <- getitem option_prices (i + 1) ;;
         cur <- getitem option_prices i ;;
         setitem option_prices i
           (fmul (fexp (fmul (fneg interest_rate) dt))
                 (fadd (fmul q up) (fmul (fsub (Fin 1) q) cur))))
       option_prices)
     option_prices) ;;
  put_price <~ lift (getitem option_prices 0) ;;
  _ <~ setattr (set_call_price call_price) ;;
  _ <~ setattr (set_put_price put_price) ;;
  (* Greeks calculation (Delta and Gamma) *)
  p1 <~ lift (getitem option_prices 1) ;;
  p0 <~ lift (getitem option_prices 0) ;;
  let delta := fdiv (fsub p1 p0)
                    (fsub (fmul current_price u) (fmul current_price d)) in
  g2 <~ lift (getitem option_prices 2) ;;
  g1 <~ lift (getitem option_prices 1) ;;
  g0 <~ lift (getitem option_prices 0) ;;
  let gamma := fdiv (fadd (fsub g2 (fmul (Fin 2) g1)) g0)
                    (fmul (Fin 0.5)
                          (fpow (fsub (fmul current_price u) (fmul current_price d)) 2)) in
  _ <~ setattr (set_call_delta delta) ;;
  _ <~ setattr (set_put_delta (fsub (Fin 1) delta)) ;;
  _ <~ setattr (set_call_gamma gamma) ;;
  setattr (set_put_gamma gamma).

(** ** [BinomialOptionPricing.calculate_prices] (binomial_option_pricing_app.py) *)

Definition calculate_prices : method (npfloat * npfloat) :=
  time_to_maturity <~ getattr time_to_maturity ;;
  strike <~ getattr strike ;;
  current_price <~ getattr current_price ;;
  volatility <~ getattr volatility ;;
  interest_rate <~ getattr interest_rate ;;
  steps <~ getattr steps ;;
  dt <~ lift (py_truediv time_to_maturity steps) ;;
  let u := fexp (fmul volatility (fsqrt dt)) in
  let d := fdiv (Fin 1) u in
  let q := fdiv (fsub (fexp (fmul interest_rate dt)) d) (fsub u d) in
  option_prices <~ lift (np_zeros (steps + 1)) ;;
  option_prices <~ lift
    (for_ (range (steps + 1)) (fun i option_prices =>
       setitem option_prices i
         (pymax0 (fsub (fmul (fmul current_price (fpow u i)) (fpow d (steps - i)))
                       strike)))
     option_prices) ;;
  option_prices <~ lift
    (for_ (range_down (steps - 1)) (fun j option_prices =>
       for_ (range (j + 1)) (fun i option_prices =>
         up <- getitem option_prices (i + 1) ;;
         cur <- getitem option_prices i ;;
         setitem option_prices i
           (fmul (fexp (fmul (fneg interest_rate) dt))
                 (fadd (fmul q up) (fmul (fsub (Fin 1) q) cur))))
       option_prices)
     option_prices) ;;
  call_price <~ lift (getitem option_prices 0) ;;
  option_prices <~ lift (np_zeros (steps + 1)) ;;
  option_prices <~ lift
    (for_ (range (steps + 1)) (fun i option_prices =>
       setitem option_prices i
         (pymax0 (fsub strike
                       (fmul (fmul current_price (fpow u i)) (fpow d (steps - i))))))
     option_prices) ;;
  option_prices <~ lift
    (for_ (range_down (steps - 1)) (fun j option_prices =>
       for_ (range (j + 1)) (fun i option_prices =>
         up <- getitem option_prices (i + 1) ;;
         cur <- getitem option_prices i ;;
         setitem option_prices i
           (fmul (fexp (fmul (fneg interest_rate) dt))
                 (fadd (fmul q up) (fmul (fsub (Fin 1) q) cur))))
       option_prices)
     option_prices) ;;
  put_price <~ lift (getitem option_prices 0) ;;
  p1 <~ lift (getitem option_prices 1) ;;
  p0 <~ lift (getitem option_prices 0) ;;
  let delta := fdiv (fsub p1 p0)
                    (fsub (fmul current_price u) (fmul current_price d)) in
  g2 <~ lift (getitem option_prices 2) ;;
  g1 <~ lift (getitem option_prices 1) ;;
  g0 <~ lift (getitem option_prices 0) ;;
  let gamma := fdiv (fadd (fsub g2 (fmul (Fin 2) g1)) g0)
                    (fmul (Fin 0.5)
                          (fpow (fsub (fmul current_price u) (fmul current_price d)) 2)) in
  _ <~ setattr (set_call_price call_price) ;;
  _ <~ setattr (set_put_price put_price) ;;
  _ <~ setattr (set_call_delta delta) ;;
  _ <~ setattr (set_put_delta (fsub (Fin 1) delta)) ;;
  _ <~ setattr (set_call_gamma gamma) ;;
  _ <~ setattr (set_put_gamma gamma) ;;
  mreturn (call_price, put_price).

(** ** [plot_heatmap] (binomial_option_pricing_app.py)

    The function fills two price grids (lines 156 to 172) and draws each of
    them as a heatmap (lines 174 to 188).  The drawing calls
    ([plt.subplots], [sns.heatmap], the axis labels) belong to matplotlib
    and seaborn, which are not part of this repository: they are a
    parameter of the model, [draw_heatmap], which is given the title, the
    grid and the two lists of tick labels and returns a figure or raises
    (seaborn raises [ValueError] on a grid without cells).  [np_round] is
    [np.round]. *)

Abbreviation grid := (list (list npfloat)).

(** [np.zeros((n, m))] with [n] and [m] obtained from [len]. *)
Definition np_zeros2 (n m : nat) : grid := replicate n (replicate m (Fin 0)).

(** [a[i, j] = v] *)
Definition setitem2 (a : grid) (i j : Z) (v : npfloat) : result grid :=
  row <- getitem a i ;;
  row' <- setitem row j v ;;
  setitem a i row'.

(** Reading a result attribute of an instance. *)
Definition attribute (o : option npfloat) : result npfloat :=
  match o with
  | Some v => Ok v
  | None => Raise AttributeError
  end.

Inductive title : Type := CALL | PUT.

Section PlotHeatmap.
Context {figure : Type}.
Variable draw_heatmap : title -> grid -> list npfloat -> list npfloat -> result figure.
Variable np_round : list npfloat -> Z -> list npfloat.

Definition plot_heatmap (binomial_model : BinomialOptionPricing)
    (spot_range vol_range : list npfloat) (strike : npfloat)
  : result (figure * figure) :=
  let call_prices := np_zeros2 (length vol_range) (length spot_range) in
  let put_prices := np_zeros2 (length vol_range) (length spot_range) in
  grids <-
    for_ (enumerate vol_range) (fun '(i, vol) grids =>
      for_ (enumerate spot_range) (fun '(j, spot) '(call_prices, put_prices) =>
        let binomial_temp :=
          __init__ (time_to_maturity binomial_model) strike spot vol
                   (interest_rate binomial_model) (steps binomial_model) in
        let '(binomial_temp, outcome) := calculate_prices binomial_temp in
        _ <- outcome ;;
        c <- attribute (call_price binomial_temp) ;;
        call_prices <- setitem2 call_prices i j c ;;
        p <- attribute (put_price binomial_temp) ;;
        put_prices <- setitem2 put_prices i j p ;;
        Ok (call_prices, put_prices))
      grids)
    (call_prices, put_prices) ;;
  let '(call_prices, put_prices) := grids in
  (* Plotting Call Price Heatmap *)
  fig_call <- draw_heatmap CALL call_prices
                (np_round spot_range 2) (np_round vol_range 2) ;;
  (* Plotting Put Price Heatmap *)
  fig_put <- draw_heatmap PUT put_prices
               (np_round spot_range 2) (np_round vol_range 2) ;;
  Ok (fig_call, fig_put).

(** Lines 174 to 188: the two figures drawn from two given grids. *)
Definition draw_figures (spot_range vol_range : list npfloat)
    (call_prices put_prices : grid) : result (figure * figure) :=
  fig_call <- draw_heatmap CALL call_prices
                (np_round spot_range 2) (np_round vol_range 2) ;;
  fig_put <- draw_heatmap PUT put_prices
               (np_round spot_range 2) (np_round vol_range 2) ;;
  Ok (fig_call, fig_put).
End PlotHeatmap.

(** Lines 156 to 172: the two grids, before anything is drawn. *)
Definition price_grids (binomial_model : BinomialOptionPricing)
    (spot_range vol_range : list npfloat) (strike : npfloat) : result (grid * grid) :=
  let call_prices := np_zeros2 (length vol_range) (length spot_range) in
  let put_prices := np_zeros2 (length vol_range) (length spot_range) in
  for_ (enumerate vol_range) (fun '(i, vol) grids =>
    for_ (enumerate spot_range) (fun '(j, spot) '(call_prices, put_prices) =>
      let binomial_temp :=
        __init__ (time_to_maturity binomial_model) strike spot vol
                 (interest_rate binomial_model) (steps binomial_model) in
      let '(binomial_temp, outcome) := calculate_prices binomial_temp in
      _ <- outcome ;;
      c <- attribute (call_price binomial_temp) ;;
      call_prices <- setitem2 call_prices i j c ;;
      p <- attribute (put_price binomial_temp) ;;
      put_prices <- setitem2 put_prices i j p ;;
      Ok (call_prices, put_prices))
    grids)
  (call_prices, put_prices).

(** A drawing that records the grid it is given, for examples. *)
Definition record_grid (t : title) (g : grid) (xticklabels yticklabels : list npfloat)
  : result grid := Ok g.

(** Entry [[i][j]] of a grid, and the shape [n x m]. *)
Definition cell (g : grid) (i j : nat) : option npfloat :=
  match g !! i with
  | Some row => row !! j
  | None => None
  end.

Definition has_shape (n m : nat) (g : grid) : Prop :=
  length g = n /\ Forall (fun row => length row = m) g.

(** The instance [plot_heatmap] builds for one grid cell. *)
Definition cell_model (binomial_model : BinomialOptionPricing)
    (strike spot vol : npfloat) : BinomialOptionPricing :=
  __init__ (time_to_maturity binomial_model) strike spot vol
           (interest_rate binomial_model) (steps binomial_model).

(** The state of the sweep when every cell before row [i], and the first
    [j] cells of row [i], hold the prices of their own pricing call. *)
Definition sweep_filled (spot_range vol_range : list npfloat)
    (call_of put_of : npfloat -> npfloat -> npfloat)
    (i j : nat) (grids : grid * grid) : Prop :=
  has_shape (length vol_range) (length spot_range) (fst grids)
  /\ has_shape (length vol_range) (length spot_range) (snd grids)
  /\ forall i' j' vol spot,
       vol_range !! i' = Some vol -> spot_range !! j' = Some spot ->
       (i' < i \/ (i' = i /\ j' < j))%nat ->
       cell (fst grids) i' j' = Some (call_of vol spot)
       /\ cell (snd grids) i' j' = Some (put_of vol spot).

(** ** The parts of the pricing routine, named

    [run] and [calculate_prices] above follow their sources statement by
    statement.  The definitions below name the pieces of that text (the two
    payoff expressions, one node update, the two loops, the Greek formulas)
    so that properties can be stated about them; [run_decompose] and
    [calculate_prices_decompose] show that the methods are made of exactly
    these pieces. *)

Definition call_payoff (strike current_price u d : npfloat) (steps i : Z) : npfloat :=
  pymax0 (fsub (fmul (fmul current_price (fpow u i)) (fpow d (steps - i))) strike).

Definition put_payoff (strike current_price u d : npfloat) (steps i : Z) : npfloat :=
  pymax0 (fsub strike (fmul (fmul current_price (fpow u i)) (fpow d (steps - i)))).

Definition terminal_prices (payoff : Z -> npfloat) (steps : Z) : result (list npfloat) :=
  option_prices <- np_zeros (steps + 1) ;;
  for_ (range (steps + 1))
       (fun i option_prices => setitem option_prices i (payoff i)) option_prices.

Definition induct_node (interest_rate dt q : npfloat) (i : Z)
    (option_prices : list npfloat) : result (list npfloat) :=
  up <- getitem option_prices (i + 1) ;;
  cur <- getitem option_prices i ;;
  setitem option_prices i
    (fmul (fexp (fmul (fneg interest_rate) dt))
          (fadd (fmul q up) (fmul (fsub (Fin 1) q) cur))).

Definition induct_level (interest_rate dt q : npfloat) (j : Z)
    (option_prices : list npfloat) : result (list npfloat) :=
  for_ (range (j + 1)) (induct_node interest_rate dt q) option_prices.

Definition backward_induction (interest_rate dt q : npfloat) (steps : Z)
    (option_prices : list npfloat) : result (list npfloat) :=
  for_ (range_down (steps - 1)) (induct_level interest_rate dt q) option_prices.

Definition up_factor (volatility dt : npfloat) : npfloat :=
  fexp (fmul volatility (fsqrt dt)).

Definition down_factor (u : npfloat) : npfloat := fdiv (Fin 1) u.

Definition risk_neutral (interest_rate dt u d : npfloat) : npfloat :=
  fdiv (fsub (fexp (fmul interest_rate dt)) d) (fsub u d).

(** The lattice factors [(dt, u, d, q)] of an instance. *)
Definition factors (self : BinomialOptionPricing)
  : result (npfloat * npfloat * npfloat * npfloat) :=
  dt <- py_truediv (time_to_maturity self) (steps self) ;;
  let u := up_factor (volatility self) dt in
  let d := down_factor u in
  Ok (dt, u, d, risk_neutral (interest_rate self) dt u d).

(** One pass: terminal payoffs, then the full backward induction; the
    result is the whole array as the pass leaves it. *)
Definition price_pass (payoff : npfloat -> npfloat -> npfloat -> npfloat -> Z -> Z -> npfloat)
    (self : BinomialOptionPricing) : result (list npfloat) :=
  f <- factors self ;;
  let '(dt, u, d, q) := f in
  option_prices <-
    terminal_prices (payoff (strike self) (current_price self) u d (steps self))
                    (steps self) ;;
  backward_induction (interest_rate self) dt q (steps self) option_prices.

Definition call_pass : BinomialOptionPricing -> result (list npfloat) :=
  price_pass call_payoff.
Definition put_pass : BinomialOptionPricing -> result (list npfloat) :=
  price_pass put_payoff.

(** Lines 29-56 of the model file: both passes, in order. *)
Definition pricing (self : BinomialOptionPricing)
  : result (npfloat * npfloat * list npfloat) :=
  a <- call_pass self ;;
  call_price <- getitem a 0 ;;
  option_prices <- put_pass self ;;
  put_price <- getitem option_prices 0 ;;
  Ok (call_price, put_price, option_prices).

Definition delta_formula (current_price u d : npfloat) (p1 p0 : npfloat) : npfloat :=
  fdiv (fsub p1 p0) (fsub (fmul current_price u) (fmul current_price d)).

Definition gamma_formula (current_price u d : npfloat) (g2 g1 g0 : npfloat) : npfloat :=
  fdiv (fadd (fsub g2 (fmul (Fin 2) g1)) g0)
       (fmul (Fin 0.5)
             (fpow (fsub (fmul current_price u) (fmul current_price d)) 2)).

(** The Greek estimates read from a given array. *)
Definition greeks (current_price u d : npfloat) (option_prices : list npfloat)
  : result (npfloat * npfloat) :=
  p1 <- getitem option_prices 1 ;;
  p0 <- getitem option_prices 0 ;;
  g2 <- getitem option_prices 2 ;;
  g1 <- getitem option_prices 1 ;;
  g0 <- getitem option_prices 0 ;;
  Ok (delta_formula current_price u d p1 p0,
      gamma_formula current_price u d g2 g1 g0).

Definition store_prices (c p : npfloat) (self : BinomialOptionPricing) :=
  set_put_price p (set_call_price c self).

Definition store_greeks (delta gamma : npfloat) (self : BinomialOptionPricing) :=
  set_put_gamma gamma
    (set_call_gamma gamma
       (set_put_delta (fsub (Fin 1) delta) (set_call_delta delta self))).

(** A call that returned normally. *)
Definition succeeds {A : Type} (c : BinomialOptionPricing * result A) : Prop :=
  exists a, snd c = Ok a.


(** The section-3 invariants on the continuous fields: all finite, with
    positive maturity, strike and spot. *)
Record valid_parameters (self : BinomialOptionPricing) (T K S0 sigma r : R) : Prop := {
  vp_maturity : time_to_maturity self = Fin T;
  vp_strike : strike self = Fin K;
  vp_spot : current_price self = Fin S0;
  vp_volatility : volatility self = Fin sigma;
  vp_rate : interest_rate self = Fin r;
  vp_maturity_pos : 0 < T;
  vp_strike_pos : 0 < K;
  vp_spot_pos : 0 < S0
}.

(** ** In-place backward induction as a function on lists

    The loop nest of the backward induction, without the bounds checks: for
    [j] from [n-1] down to [0] and [i] from [0] to [j], entry [i] is
    overwritten by [combine value[i+1] value[i]]. *)

Section InPlace.
Context {A : Type} (combine : A -> A -> A) (dflt : A).

Definition inplace_overwrite (value : list A) (i : nat) : list A :=
  <[i := combine (nth (i + 1) value dflt) (nth i value dflt)]> value.

Definition inplace_level (value : list A) (j : nat) : list A :=
  fold_left inplace_overwrite (seq 0 (j + 1)) value.

Definition inplace_induction (n : nat) (value : list A) : list A :=
  fold_left inplace_level (reverse (seq 0 n)) value.
End InPlace.


(** The value written at a node by the source's update expression. *)
Definition node_value (interest_rate dt q up cur : npfloat) : npfloat :=
  fmul (fexp (fmul (fneg interest_rate) dt))
       (fadd (fmul q up) (fmul (fsub (Fin 1) q) cur)).

(** The terminal array the first loop of a pass builds. *)
Definition payoff_vector (payoff : Z -> npfloat) (n : nat) : list npfloat :=
  (fun i : nat => payoff (Z.of_nat i)) <$> seq 0 (n + 1).

(** The factors and the two arrays a pricing call computes when none of
    its steps raises. *)
Definition dt_of (self : BinomialOptionPricing) : npfloat :=
  fdiv (time_to_maturity self) (Fin (IZR (steps self))).
Definition u_of (self : BinomialOptionPricing) : npfloat :=
  up_factor (volatility self) (dt_of self).
Definition d_of (self : BinomialOptionPricing) : npfloat :=
  down_factor (u_of self).
Definition q_of (self : BinomialOptionPricing) : npfloat :=
  risk_neutral (interest_rate self) (dt_of self) (u_of self) (d_of self).

Definition pass_array
    (payoff : npfloat -> npfloat -> npfloat -> npfloat -> Z -> Z -> npfloat)
    (self : BinomialOptionPricing) : list npfloat :=
  inplace_induction
    (node_value (interest_rate self) (dt_of self) (q_of self)) (Fin 0)
    (Z.to_nat (steps self))
    (payoff_vector
       (payoff (strike self) (current_price self) (u_of self) (d_of self) (steps self))
       (Z.to_nat (steps self))).

Definition call_array : BinomialOptionPricing -> list npfloat := pass_array call_payoff.
Definition put_array : BinomialOptionPricing -> list npfloat := pass_array put_payoff.

Definition call_price_of (self : BinomialOptionPricing) : npfloat :=
  nth 0 (call_array self) (Fin 0).
Definition put_price_of (self : BinomialOptionPricing) : npfloat :=
  nth 0 (put_array self) (Fin 0).
Definition delta_of (self : BinomialOptionPricing) : npfloat :=
  delta_formula (current_price self) (u_of self) (d_of self)
    (nth 1 (put_array self) (Fin 0)) (nth 0 (put_array self) (Fin 0)).
Definition gamma_of (self : BinomialOptionPricing) : npfloat :=
  gamma_formula (current_price self) (u_of self) (d_of self)
    (nth 2 (put_array self) (Fin 0)) (nth 1 (put_array self) (Fin 0))
    (nth 0 (put_array self) (Fin 0)).

(** The instance once the prices are stored, and once the Greeks are. *)
Definition priced (self : BinomialOptionPricing) : BinomialOptionPricing :=
  store_prices (call_price_of self) (put_price_of self) self.
Definition finished (self : BinomialOptionPricing) : BinomialOptionPricing :=
  store_greeks (delta_of self) (gamma_of self) (priced self).

(** ** The algorithm of the specification, over the real numbers

    Section 4.1 of the specification, steps 1 to 6, word for word: the
    factors, the terminal payoff vector of length [steps + 1], the in-place
    backward induction and the price [value[0]]. *)

Module Spec.
Section Algorithm.
Variables (T K S0 sigma r : R) (n : nat).

Definition dt : R := T / INR n.
Definition u : R := exp (sigma * sqrt dt).
Definition d : R := 1 / u.
Definition q : R := (exp (r * dt) - d) / (u - d).

(** Payoff at maturity of node [i], reached by [i] up-moves. *)
Definition call_payoff (i : nat) : R := Rmax 0 (S0 * u ^ i * d ^ (n - i) - K).
Definition put_payoff (i : nat) : R := Rmax 0 (K - S0 * u ^ i * d ^ (n - i)).

Definition call_terminal : list R := call_payoff <$> seq 0 (n + 1).
Definition put_terminal : list R := put_payoff <$> seq 0 (n + 1).

Definition discounted (up cur : R) : R :=
  exp (- r * dt) * (q * up + (1 - q) * cur).

Definition induction (value : list R) : list R :=
  inplace_induction discounted 0 n value.

Definition call_array : list R := induction call_terminal.
Definition put_array : list R := induction put_terminal.

Definition call_price : R := nth 0 call_array 0.
Definition put_price : R := nth 0 put_array 0.

(** Step 7: the Greeks from entries 0, 1, 2 of the put array. *)
Definition call_delta : R :=
  (nth 1 put_array 0 - nth 0 put_array 0) / (S0 * u - S0 * d).
Definition call_gamma : R :=
  (nth 2 put_array 0 - 2 * nth 1 put_array 0 + nth 0 put_array 0)
  / (0.5 * (S0 * u - S0 * d) ^ 2).
End Algorithm.
End Spec.

(** ** Concrete instances *)

(** The parameters of the model file's [__main__] block. *)
Definition reference_model : BinomialOptionPricing :=
  __init__ (Fin 2) (Fin 90) (Fin 100) (Fin 0.2) (Fin 0.05) 100.

(** A one-step lattice. *)
Definition single_step_model : BinomialOptionPricing :=
  __init__ (Fin 1) (Fin 100) (Fin 100) (Fin 0.2) (Fin 0.05) 1.

(** Two steps of length one with [exp(interest_rate*dt) > u]: the
    risk-neutral probability exceeds one. *)
Definition steep_rate_model : BinomialOptionPricing :=
  __init__ (Fin 2) (Fin 2) (Fin 1) (Fin 1) (Fin 2) 2.

(** Zero volatility, two steps. *)
Definition zero_volatility_model : BinomialOptionPricing :=
  __init__ (Fin 1) (Fin 100) (Fin 100) (Fin 0) (Fin 0.05) 2.

(** A zero interest rate, two steps: [q = (1 - d) / (u - d)]. *)
Definition zero_rate_model : BinomialOptionPricing :=
  __init__ (Fin 1) (Fin 100) (Fin 100) (Fin 0.2) (Fin 0) 2.

(** Two volatilities and two spot prices for a sweep. *)
Definition heatmap_vol_range : list npfloat := [Fin 0.1; Fin 0.3].
Definition heatmap_spot_range : list npfloat := [Fin 80; Fin 120].

Definition nan_strike_model : BinomialOptionPricing :=
  __init__ (Fin 1) NaN (Fin 100) (Fin 0.2) (Fin 0.05) 2.


(** Two instances built from the same six arguments, whatever results
    earlier calls have left on them. *)
Definition same_parameters (a b : BinomialOptionPricing) : Prop :=
  time_to_maturity a = time_to_maturity b
  /\ strike a = strike b
  /\ current_price a = current_price b
  /\ volatility a = volatility b
  /\ interest_rate a = interest_rate b
  /\ steps a = steps b.

(** The exception a pricing call raises for a given number of steps below
    two, in the order the statements of the call fail. *)
Definition steps_exception (steps : Z) : exn :=
  if (steps =? 1)%Z then IndexError
  else if (steps =? 0)%Z then ZeroDivisionError
  else if (steps =? -1)%Z then IndexError
  else ValueError.

(** ** Rounded arithmetic

    The definitions above compute on finite values exactly.  That is enough
    for what the program's text decides (which statement raises, which
    attribute is stored, which entries a formula reads, whether two copies
    of the routine agree): there rounding acts alike on both sides.  It is
    not enough for a property of the numbers themselves, a sign or an
    ordering, since float64 rounds every result, overflows to an infinity
    and underflows to zero.

    The module below embeds [run] a second time, over an arithmetic in
    which every operation on finite values rounds its exact result:
    [round] is the rounding of [+], [-], [*], [/] and [np.sqrt], which
    IEEE 754 defines, [np_exp] and [np_power] are the library functions
    behind [np.exp] and [**], and [float_of_int] is Python's conversion of
    the integer [steps] in [time_to_maturity / steps], which raises when the
    integer is beyond the float range.  Special values follow the same IEEE
    rules as above.  A zero carries no sign: no divisor of this program can
    be a negative zero ([u] is an exponential, [x - x] is [+0.0]).

    [exact] is the arithmetic of the first embedding; [binary64] is IEEE 754
    double precision, rounding to nearest, ties to even.  [float_laws]
    collects what the properties below use of an arithmetic. *)

Module Rounded.

Record arithmetic : Type := {
  round : R -> npfloat;
  np_exp : R -> npfloat;
  np_power : R -> Z -> npfloat;
  float_of_int : Z -> result R
}.

(** No rounding at all. *)
Definition exact : arithmetic :=
  {| round := Fin;
     np_exp := fun x => Fin (exp x);
     np_power := fun x n => fpow (Fin x) n;
     float_of_int := fun n => Ok (IZR n) |}.

(** *** IEEE 754 binary64 *)

(** The exponent [e] of the binade [2^e <= |x| < 2^(e+1)] of [x], not below
    that of the subnormal numbers. *)
Definition exponent (x : R) : Z :=
  Z.max (-1022) (Zfloor (ln (Rabs x) / ln 2)).

(** The distance between two consecutive floats around [x]: 53 significant
    bits. *)
Definition ulp (x : R) : R := powerRZ 2 (exponent x - 52).

(** The integer nearest to [x]; the even one of the two when [x] lies
    halfway. *)
Definition nearest_even (x : R) : Z :=
  let n := Zfloor x in
  if Rlt_dec (x - IZR n) (1 / 2) then n
  else if Rlt_dec (1 / 2) (x - IZR n) then (n + 1)%Z
  else if Z.even n then n else (n + 1)%Z.

(** The multiple of [ulp x] nearest to [x]. *)
Definition nearest_float (x : R) : R := IZR (nearest_even (x / ulp x)) * ulp x.

(** A result of magnitude [2^1024] or more is an infinity. *)
Definition overflow (y : R) : npfloat :=
  if Rle_dec (powerRZ 2 1024) y then PInf
  else if Rle_dec y (- powerRZ 2 1024) then NInf
  else Fin y.

Definition round64 (x : R) : npfloat := overflow (nearest_float x).

(** [x ** n] on a finite base, taken correctly rounded; a zero base with a
    negative exponent gives an infinity. *)
Definition power64 (x : R) (n : Z) : npfloat :=
  if (0 <=? n)%Z then round64 (x ^ Z.to_nat n)
  else if Req_dec_T x 0 then PInf
  else round64 (/ x ^ Z.to_nat (- n)).

(** [float(n)]: [OverflowError] when [n] rounds to an infinity. *)
Definition float_of_int64 (n : Z) : result R :=
  match round64 (IZR n) with
  | Fin x => Ok x
  | _ => Raise OverflowError
  end.

(** Double precision.  [np.exp] and [**] are taken correctly rounded here;
    [float_laws] asks much less of them. *)
Definition binary64 : arithmetic :=
  {| round := round64;
     np_exp := fun x => round64 (exp x);
     np_power := power64;
     float_of_int := float_of_int64 |}.

(** *** The operations and [run] over an arithmetic *)

Section Arithmetic.
Variable A : arithmetic.

Definition fadd (a b : npfloat) : npfloat :=
  match a, b with
  | Fin x, Fin y => round A (x + y)
  | _, _ => fadd a b
  end.

Definition fsub (a b : npfloat) : npfloat :=
  match a, b with
  | Fin x, Fin y => round A (x - y)
  | _, _ => fsub a b
  end.

Definition fmul (a b : npfloat) : npfloat :=
  match a, b with
  | Fin x, Fin y => round A (x * y)
  | _, _ => fmul a b
  end.

Definition fdiv (a b : npfloat) : npfloat :=
  match a, b with
  | Fin x, Fin y => if Req_dec_T y 0 then inf_of (Rsgn x) else round A (x / y)
  | _, _ => fdiv a b
  end.

Definition fexp (a : npfloat) : npfloat :=
  match a with
  | Fin x => np_exp A x
  | _ => fexp a
  end.

Definition fsqrt (a : npfloat) : npfloat :=
  match a with
  | Fin x => if Rlt_dec x 0 then NaN else round A (sqrt x)
  | _ => fsqrt a
  end.

Definition fpow (a : npfloat) (n : Z) : npfloat :=
  match a with
  | Fin x => np_power A x n
  | _ => fpow a n
  end.

(** Python [a / n] between a float and an int: the int is converted to a
    float first. *)
Definition py_truediv (a : npfloat) (n : Z) : result npfloat :=
  if (n =? 0)%Z then Raise ZeroDivisionError
  else x <- float_of_int A n ;; Ok (fdiv a (Fin x)).

(** [BinomialOptionPricing.run], statement by statement as above. *)
Definition run : method unit :=
  time_to_maturity <~ getattr time_to_maturity ;;
  strike <~ getattr strike ;;
  current_price <~ getattr current_price ;;
  volatility <~ getattr volatility ;;
  interest_rate <~ getattr interest_rate ;;
  steps <~ getattr steps ;;
  (* Time step and the up/down factor (u/d) *)
  dt <~ lift (py_truediv time_to_maturity steps) ;;
  let u := fexp (fmul volatility (fsqrt dt)) in
  let d := fdiv (Fin 1) u in
  let q := fdiv (fsub (fexp (fmul interest_rate dt)) d) (fsub u d) in
  (* Initialize the option prices at the final step (maturity) *)
  option_prices <~ lift (np_zeros (steps + 1)) ;;
  option_prices <~ lift
    (for_ (range (steps + 1)) (fun i option_prices =>
       setitem option_prices i
         (pymax0 (fsub (fmul (fmul current_price (fpow u i)) (fpow d (steps - i)))
                       strike)))
     option_prices) ;;
  (* Backward induction to calculate option price at the initial step *)
  option_prices <~ lift
    (for_ (range_down (steps - 1)) (fun j option_prices =>
       for_ (range (j + 1)) (fun i option_prices =>
         up <- getitem option_prices (i + 1) ;;
         cur <- getitem option_prices i ;;
         setitem option_prices i
           (fmul (fexp (fmul (fneg interest_rate) dt))
                 (fadd (fmul q up) (fmul (fsub (Fin 1) q) cur))))
       option_prices)
     option_prices) ;;
  call_price <~ lift (getitem option_prices 0) ;;
  (* For put option *)
  option_prices <~ lift (np_zeros (steps + 1)) ;;
  option_prices <~ lift
    (for_ (range (steps + 1)) (fun i option_prices =>
       setitem option_prices i
         (pymax0 (fsub strike
                       (fmul (fmul current_price (fpow u i)) (fpow d (steps - i))))))
     option_prices) ;;
  (* Backward induction for put option *)
  option_prices <~ lift
    (for_ (range_down (steps - 1)) (fun j option_prices =>
       for_ (range (j + 1)) (fun i option_prices =>
         up <- getitem option_prices (i + 1) ;;
         cur <- getitem option_prices i ;;
         setitem option_prices i
           (fmul (fexp (fmul (fneg interest_rate) dt))
                 (fadd (fmul q up) (fmul (fsub (Fin 1) q) cur))))
       option_prices)
     option_prices) ;;
  put_price <~ lift (getitem option_prices 0) ;;
  _ <~ setattr (set_call_price call_price) ;;
  _ <~ setattr (set_put_price put_price) ;;
  (* Greeks calculation (Delta and Gamma) *)
  p1 <~ lift (getitem option_prices 1) ;;
  p0 <~ lift (getitem option_prices 0) ;;
  let delta := fdiv (fsub p1 p0)
                    (fsub (fmul current_price u) (fmul current_price d)) in
  g2 <~ lift (getitem option_prices 2) ;;
  g1 <~ lift (getitem option_prices 1) ;;
  g0 <~ lift (getitem option_prices 0) ;;
  let gamma := fdiv (fadd (fsub g2 (fmul (Fin 2) g1)) g0)
                    (fmul (Fin 0.5)
                          (fpow (fsub (fmul current_price u) (fmul current_price d)) 2)) in
  _ <~ setattr (set_call_delta delta) ;;
  _ <~ setattr (set_put_delta (fsub (Fin 1) delta)) ;;
  _ <~ setattr (set_call_gamma gamma) ;;
  setattr (set_put_gamma gamma).

(** The parts of [run], named as for the first embedding. *)

Definition call_payoff (strike current_price u d : npfloat) (steps i : Z) : npfloat :=
  pymax0 (fsub (fmul (fmul current_price (fpow u i)) (fpow d (steps - i))) strike).

Definition put_payoff (strike current_price u d : npfloat) (steps i : Z) : npfloat :=
  pymax0 (fsub strike (fmul (fmul current_price (fpow u i)) (fpow d (steps - i)))).

Definition node_value (interest_rate dt q up cur : npfloat) : npfloat :=
  fmul (fexp (fmul (fneg interest_rate) dt))
       (fadd (fmul q up) (fmul (fsub (Fin 1) q) cur)).

Definition induct_node (interest_rate dt q : npfloat) (i : Z)
    (option_prices : list npfloat) : result (list npfloat) :=
  up <- getitem option_prices (i + 1) ;;
  cur <- getitem option_prices i ;;
  setitem option_prices i (node_value interest_rate dt q up cur).

Definition induct_level (interest_rate dt q : npfloat) (j : Z)
    (option_prices : list npfloat) : result (list npfloat) :=
  for_ (range (j + 1)) (induct_node interest_rate dt q) option_prices.

Definition backward_induction (interest_rate dt q : npfloat) (steps : Z)
    (option_prices : list npfloat) : result (list npfloat) :=
  for_ (range_down (steps - 1)) (induct_level interest_rate dt q) option_prices.

Definition up_factor (volatility dt : npfloat) : npfloat :=
  fexp (fmul volatility (fsqrt dt)).

Definition down_factor (u : npfloat) : npfloat := fdiv (Fin 1) u.

Definition risk_neutral (interest_rate dt u d : npfloat) : npfloat :=
  fdiv (fsub (fexp (fmul interest_rate dt)) d) (fsub u d).

Definition factors (self : BinomialOptionPricing)
  : result (npfloat * npfloat * npfloat * npfloat) :=
  dt <- py_truediv (time_to_maturity self) (steps self) ;;
  let u := up_factor (volatility self) dt in
  let d := down_factor u in
  Ok (dt, u, d, risk_neutral (interest_rate self) dt u d).

Definition price_pass (payoff : npfloat -> npfloat -> npfloat -> npfloat -> Z -> Z -> npfloat)
    (self : BinomialOptionPricing) : result (list npfloat) :=
  f <- factors self ;;
  let '(dt, u, d, q) := f in
  option_prices <-
    terminal_prices (payoff (strike self) (current_price self) u d (steps self))
                    (steps self) ;;
  backward_induction (interest_rate self) dt q (steps self) option_prices.

Definition pricing (self : BinomialOptionPricing)
  : result (npfloat * npfloat * list npfloat) :=
  a <- price_pass call_payoff self ;;
  call_price <- getitem a 0 ;;
  option_prices <- price_pass put_payoff self ;;
  put_price <- getitem option_prices 0 ;;
  Ok (call_price, put_price, option_prices).

Definition delta_formula (current_price u d : npfloat) (p1 p0 : npfloat) : npfloat :=
  fdiv (fsub p1 p0) (fsub (fmul current_price u) (fmul current_price d)).

Definition gamma_formula (current_price u d : npfloat) (g2 g1 g0 : npfloat) : npfloat :=
  fdiv (fadd (fsub g2 (fmul (Fin 2) g1)) g0)
       (fmul (Fin 0.5)
             (fpow (fsub (fmul current_price u) (fmul current_price d)) 2)).

Definition greeks (current_price u d : npfloat) (option_prices : list npfloat)
  : result (npfloat * npfloat) :=
  p1 <- getitem option_prices 1 ;;
  p0 <- getitem option_prices 0 ;;
  g2 <- getitem option_prices 2 ;;
  g1 <- getitem option_prices 1 ;;
  g0 <- getitem option_prices 0 ;;
  Ok (delta_formula current_price u d p1 p0,
      gamma_formula current_price u d g2 g1 g0).

Definition store_greeks (delta gamma : npfloat) (self : BinomialOptionPricing) :=
  set_put_gamma gamma
    (set_call_gamma gamma
       (set_put_delta (fsub (Fin 1) delta) (set_call_delta delta self))).

(** The array a pass leaves when none of its statements raises, given the
    factors. *)
Definition pass_array
    (payoff : npfloat -> npfloat -> npfloat -> npfloat -> Z -> Z -> npfloat)
    (self : BinomialOptionPricing) (dt u d q : npfloat) : list npfloat :=
  inplace_induction (node_value (interest_rate self) dt q) (Fin 0)
    (Z.to_nat (steps self))
    (payoff_vector (payoff (strike self) (current_price self) u d (steps self))
                   (Z.to_nat (steps self))).

End Arithmetic.

(** What the properties below use of an arithmetic.  Rounding is monotone
    and leaves 0 and 1 as they are: IEEE 754 requires it of [+], [-], [*],
    [/] and the square root, in every rounding mode.  The exponential is
    never negative, and at least 1 on a non-negative argument: no standard
    fixes the last bit of [exp], but these two facts hold of any
    implementation that returns one of the two floats around the exact
    value.  The float of a positive integer is at least 1. *)
Record float_laws (A : arithmetic) : Prop := {
  round_monotone : forall x y, x <= y -> fle (round A x) (round A y) = true;
  round_0 : round A 0 = Fin 0;
  round_1 : round A 1 = Fin 1;
  exp_not_negative : forall x, fle (Fin 0) (np_exp A x) = true;
  exp_above_one : forall x, 0 <= x -> fle (Fin 1) (np_exp A x) = true;
  float_of_int_positive :
    forall n x, (1 <= n)%Z -> float_of_int A n = Ok x -> 1 <= x
}.

End Rounded.

(** A value that does not compare below zero: a finite value that is not
    negative, [+inf] or NaN. *)
Definition not_negative (a : npfloat) : Prop := flt a (Fin 0) = false.

(** Zero or NaN. *)
Definition zero_or_nan (a : npfloat) : Prop := a = Fin 0 \/ a = NaN.

(** A volatility of [2^-70] on two steps of length one; every parameter is
    a float64. *)
Definition tiny_volatility_model : BinomialOptionPricing :=
  __init__ (Fin 2) (Fin 100) (Fin 100) (Fin (powerRZ 2 (-70))) (Fin 0.0625) 2.

(** * Properties *)

(** ** Indexing and loops *)

Lemma np_index_nat (len i : nat) :
  (i < len)%nat -> np_index len (Z.of_nat i) = Ok i.
Proof.
  intros Hi. unfold np_index.
  destruct (Z.leb_spec 0 (Z.of_nat i)); [|lia].
  destruct (Z.ltb_spec (Z.of_nat i) (Z.of_nat len)); [|lia].
  simpl. by rewrite Nat2Z.id.
Qed.

Lemma np_index_beyond (len : nat) (i : Z) :
  (Z.of_nat len <= i)%Z -> np_index len i = Raise IndexError.
Proof.
  intros Hi. unfold np_index.
  destruct (Z.leb_spec 0 i); [|lia].
  destruct (Z.ltb_spec i (Z.of_nat len)); [lia|].
  destruct (Z.leb_spec (- Z.of_nat len) i); [|lia].
  destruct (Z.ltb_spec i 0); [lia|]. reflexivity.
Qed.

Lemma getitem_nat {A : Type} (a : list A) (i : nat) (x : A) :
  a !! i = Some x -> getitem a (Z.of_nat i) = Ok x.
Proof.
  intros Hx. unfold getitem.
  rewrite np_index_nat by (by eapply lookup_lt_Some). simpl. by rewrite Hx.
Qed.

Lemma getitem_nth (a : list npfloat) (i : nat) (dflt : npfloat) :
  (i < length a)%nat -> getitem a (Z.of_nat i) = Ok (nth i a dflt).
Proof.
  intros Hi. apply getitem_nat.
  destruct (lookup_lt_is_Some_2 a i Hi) as [x Hx].
  rewrite Hx. f_equal. symmetry. by apply nth_lookup_Some with (d := dflt).
Qed.

Lemma getitem_beyond {A : Type} (a : list A) (i : Z) :
  (Z.of_nat (length a) <= i)%Z -> getitem a i = Raise IndexError.
Proof. intros Hi. unfold getitem. by rewrite np_index_beyond. Qed.

Lemma setitem_nat {A : Type} (a : list A) (i : nat) (v : A) :
  (i < length a)%nat -> setitem a (Z.of_nat i) v = Ok (<[i := v]> a).
Proof. intros Hi. unfold setitem. by rewrite np_index_nat. Qed.

Lemma range_nat (n : nat) : range (Z.of_nat n) = Z.of_nat <$> seq 0 n.
Proof. unfold range. by rewrite Nat2Z.id. Qed.

Lemma range_down_nat (n : nat) :
  range_down (Z.of_nat n - 1) = Z.of_nat <$> reverse (seq 0 n).
Proof.
  unfold range_down. replace (Z.of_nat n - 1 + 1)%Z with (Z.of_nat n) by lia.
  by rewrite range_nat, fmap_reverse.
Qed.

Lemma for_fmap {A B S : Type} (f : A -> B) (l : list A)
    (body : B -> S -> result S) (s : S) :
  for_ (f <$> l) body s = for_ l (fun x => body (f x)) s.
Proof.
  revert s. induction l as [|x l IH]; intros s; simpl; [reflexivity|].
  destruct (body (f x) s); simpl; [apply IH | reflexivity].
Qed.

(** A loop whose body cannot raise under an invariant is the fold of the
    function its body computes. *)
Lemma for_fold {A S : Type} (I : S -> Prop) (f : S -> A -> S) (l : list A)
    (body : A -> S -> result S) (s : S) :
  (forall x s, x ∈ l -> I s -> body x s = Ok (f s x) /\ I (f s x)) ->
  I s ->
  for_ l body s = Ok (fold_left f l s) /\ I (fold_left f l s).
Proof.
  revert s. induction l as [|x l IH]; intros s Hbody Hs; simpl; [done|].
  destruct (Hbody x s) as [-> Hs']; [left | done |]. simpl.
  apply IH; [|done]. intros y s' Hy. apply Hbody. by right.
Qed.

(** An invariant of the folded function over the indices it visits. *)
Lemma fold_left_invariant {A S : Type} (I : S -> Prop) (f : S -> A -> S)
    (l : list A) (s : S) :
  (forall x s, x ∈ l -> I s -> I (f s x)) -> I s -> I (fold_left f l s).
Proof.
  revert s. induction l as [|x l IH]; intros s Hf Hs; simpl; [done|].
  apply IH; [|apply Hf; [left | done]]. intros y s' Hy. apply Hf. by right.
Qed.

Lemma elem_of_seq0 (n i : nat) : i ∈ seq 0 n <-> (i < n)%nat.
Proof. rewrite elem_of_seq. lia. Qed.

(** ** The loops never raise on an array of the right length *)

Section InPlaceFacts.
Context {A : Type} (combine : A -> A -> A) (dflt : A).

Lemma length_inplace_overwrite (value : list A) (i : nat) :
  length (inplace_overwrite combine dflt value i) = length value.
Proof. unfold inplace_overwrite. apply length_insert. Qed.

Lemma length_inplace_level (value : list A) (j : nat) :
  length (inplace_level combine dflt value j) = length value.
Proof.
  unfold inplace_level.
  apply (fold_left_invariant (fun s => length s = length value)); [|done].
  intros i s _ Hs. by rewrite length_inplace_overwrite.
Qed.

Lemma length_inplace_induction (n : nat) (value : list A) :
  length (inplace_induction combine dflt n value) = length value.
Proof.
  unfold inplace_induction.
  apply (fold_left_invariant (fun s => length s = length value)); [|done].
  intros j s _ Hs. by rewrite length_inplace_level.
Qed.

Lemma inplace_level_S (value : list A) (j : nat) :
  inplace_level combine dflt value (S j)
  = inplace_overwrite combine dflt (inplace_level combine dflt value j) (S j).
Proof.
  unfold inplace_level. replace (S j + 1)%nat with (S (j + 1)) by lia.
  rewrite seq_S, fold_left_app. simpl. do 2 f_equal. lia.
Qed.

Lemma inplace_level_0 (value : list A) :
  inplace_level combine dflt value 0 = inplace_overwrite combine dflt value 0.
Proof. reflexivity. Qed.

Lemma inplace_induction_S (n : nat) (value : list A) :
  inplace_induction combine dflt (S n) value
  = inplace_induction combine dflt n (inplace_level combine dflt value n).
Proof.
  unfold inplace_induction. by rewrite seq_S, reverse_app.
Qed.

End InPlaceFacts.

Lemma induct_node_ok (r dt q dflt : npfloat) (a : list npfloat) (i : nat) :
  (i + 1 < length a)%nat ->
  induct_node r dt q (Z.of_nat i) a
  = Ok (inplace_overwrite (node_value r dt q) dflt a i).
Proof.
  intros Hi. unfold induct_node, inplace_overwrite.
  replace (Z.of_nat i + 1)%Z with (Z.of_nat (i + 1)) by lia.
  rewrite (getitem_nth a (i + 1) dflt) by done. simpl.
  rewrite (getitem_nth a i dflt) by lia. simpl.
  rewrite setitem_nat by lia. reflexivity.
Qed.

Lemma induct_level_ok (r dt q dflt : npfloat) (a : list npfloat) (j : nat) :
  (j + 1 < length a)%nat ->
  induct_level r dt q (Z.of_nat j) a
  = Ok (inplace_level (node_value r dt q) dflt a j).
Proof.
  intros Hj. unfold induct_level, inplace_level.
  replace (Z.of_nat j + 1)%Z with (Z.of_nat (j + 1)) by lia.
  rewrite range_nat, for_fmap.
  apply (for_fold (fun s => length s = length a)); [|done].
  intros i s Hi Hs. apply elem_of_seq0 in Hi. split.
  - apply induct_node_ok. lia.
  - by rewrite length_inplace_overwrite.
Qed.

Lemma backward_induction_ok (r dt q dflt : npfloat) (a : list npfloat) (n : nat) :
  length a = (n + 1)%nat ->
  backward_induction r dt q (Z.of_nat n) a
  = Ok (inplace_induction (node_value r dt q) dflt n a).
Proof.
  intros Ha. unfold backward_induction, inplace_induction.
  rewrite range_down_nat, for_fmap.
  apply (for_fold (fun s => length s = length a)); [|done].
  intros j s Hj Hs. apply elem_of_reverse, elem_of_seq0 in Hj. split.
  - apply induct_level_ok. lia.
  - by rewrite length_inplace_level.
Qed.

Lemma lookup_fold_insert {A : Type} (g : nat -> A) (m : nat) (l : list A) (k : nat) :
  (m <= length l)%nat ->
  fold_left (fun s i => <[i := g i]> s) (seq 0 m) l !! k
  = if decide (k < m)%nat then Some (g k) else l !! k.
Proof.
  revert k. induction m as [|m IH]; intros k Hm.
  { simpl. destruct (decide (k < 0)%nat); [lia | done]. }
  rewrite seq_S, fold_left_app. simpl.
  set (s := fold_left _ (seq 0 m) l) in *.
  assert (length s = length l) as Hlen.
  { subst s. apply (fold_left_invariant (fun s => length s = length l)); [|done].
    intros i s' _ Hs'. by rewrite length_insert. }
  destruct (decide (k = m)) as [->|Hne].
  - rewrite list_lookup_insert_eq by lia.
    destruct (decide (m < S m)%nat); [done | lia].
  - rewrite list_lookup_insert_ne by done. rewrite IH by lia.
    destruct (decide (k < m)%nat), (decide (k < S m)%nat); try done; lia.
Qed.

Lemma length_payoff_vector (payoff : Z -> npfloat) (n : nat) :
  length (payoff_vector payoff n) = (n + 1)%nat.
Proof. unfold payoff_vector. by rewrite length_fmap, length_seq. Qed.

Lemma terminal_prices_ok (payoff : Z -> npfloat) (n : nat) :
  terminal_prices payoff (Z.of_nat n) = Ok (payoff_vector payoff n).
Proof.
  unfold terminal_prices, np_zeros.
  replace (Z.of_nat n + 1)%Z with (Z.of_nat (n + 1)) by lia.
  destruct (Z.ltb_spec (Z.of_nat (n + 1)) 0); [lia|]. simpl.
  rewrite range_nat, for_fmap, Nat2Z.id.
  destruct (for_fold (fun s => length s = (n + 1)%nat)
              (fun s i => <[i := payoff (Z.of_nat i)]> s) (seq 0 (n + 1))
              (fun i s => setitem s (Z.of_nat i) (payoff (Z.of_nat i)))
              (replicate (n + 1) (Fin 0))) as [-> Hlen].
  - intros i s Hi Hs. apply elem_of_seq0 in Hi. split.
    + apply setitem_nat. lia.
    + by rewrite length_insert.
  - apply length_replicate.
  - f_equal. apply list_eq. intros k.
    rewrite lookup_fold_insert by (rewrite length_replicate; lia).
    unfold payoff_vector. rewrite list_lookup_fmap.
    destruct (decide (k < n + 1)%nat) as [Hk|Hk].
    + rewrite lookup_seq_lt by done. reflexivity.
    + rewrite lookup_seq_ge by lia. simpl.
      apply lookup_ge_None. rewrite length_replicate. lia.
Qed.

(** ** The two methods are made of the named pieces *)

Ltac step_result :=
  match goal with
  | H : ?c = _ |- context [match ?c with Ok _ => _ | Raise _ => _ end] =>
      rewrite H; cbv beta iota zeta; try reflexivity
  | |- context [match ?c with Ok _ => _ | Raise _ => _ end] =>
      lazymatch c with
      | match _ with Ok _ => _ | Raise _ => _ end => fail
      | _ => destruct c eqn:?; cbv beta iota zeta; try reflexivity
      end
  end.

Ltac unfold_pieces :=
  unfold pricing, call_pass, put_pass, price_pass, factors, greeks,
    terminal_prices, backward_induction, induct_level, induct_node,
    call_payoff, put_payoff, up_factor, down_factor, risk_neutral,
    delta_formula, gamma_formula, store_prices, store_greeks,
    mbind, getattr, lift, setattr, mreturn, bind;
  cbv beta iota zeta.

Lemma run_decompose (self : BinomialOptionPricing) :
  run self =
  match factors self with
  | Raise e => (self, Raise e)
  | Ok (dt, u, d, q) =>
    match pricing self with
    | Raise e => (self, Raise e)
    | Ok (c, p, a) =>
      match greeks (current_price self) u d a with
      | Raise e => (store_prices c p self, Raise e)
      | Ok (delta, gamma) =>
        (store_greeks delta gamma (store_prices c p self), Ok tt)
      end
    end
  end.
Proof. unfold run. unfold_pieces. repeat step_result. Qed.

Lemma calculate_prices_decompose (self : BinomialOptionPricing) :
  calculate_prices self =
  match factors self with
  | Raise e => (self, Raise e)
  | Ok (dt, u, d, q) =>
    match pricing self with
    | Raise e => (self, Raise e)
    | Ok (c, p, a) =>
      match greeks (current_price self) u d a with
      | Raise e => (self, Raise e)
      | Ok (delta, gamma) =>
        (store_greeks delta gamma (store_prices c p self), Ok (c, p))
      end
    end
  end.
Proof. unfold calculate_prices. unfold_pieces. repeat step_result. Qed.

(** ** Which calls return and which raise *)

Lemma factors_ok (self : BinomialOptionPricing) :
  steps self <> 0%Z ->
  factors self = Ok (dt_of self, u_of self, d_of self, q_of self).
Proof.
  intros Hn. unfold factors, py_truediv.
  destruct (Z.eqb_spec (steps self) 0); [done|]. reflexivity.
Qed.

Lemma factors_zero_steps (self : BinomialOptionPricing) :
  steps self = 0%Z -> factors self = Raise ZeroDivisionError.
Proof. intros Hn. unfold factors, py_truediv. by rewrite Hn. Qed.

Lemma terminal_prices_steps (payoff : Z -> npfloat) (steps : Z) :
  (0 <= steps)%Z ->
  terminal_prices payoff steps = Ok (payoff_vector payoff (Z.to_nat steps)).
Proof.
  intros Hn. rewrite <- (Z2Nat.id steps) at 1 by done. apply terminal_prices_ok.
Qed.

Lemma backward_induction_steps (r dt q dflt : npfloat) (a : list npfloat) (steps : Z) :
  (0 <= steps)%Z -> length a = (Z.to_nat steps + 1)%nat ->
  backward_induction r dt q steps a
  = Ok (inplace_induction (node_value r dt q) dflt (Z.to_nat steps) a).
Proof.
  intros Hn Ha. rewrite <- (Z2Nat.id steps) at 1 by done.
  by apply backward_induction_ok.
Qed.

Lemma price_pass_ok payoff (self : BinomialOptionPricing) :
  (1 <= steps self)%Z -> price_pass payoff self = Ok (pass_array payoff self).
Proof.
  intros Hn. unfold price_pass. rewrite factors_ok by lia.
  cbv beta iota zeta delta [bind].
  rewrite terminal_prices_steps by lia.
  rewrite (backward_induction_steps _ _ _ (Fin 0))
    by (rewrite ?length_payoff_vector; lia).
  reflexivity.
Qed.

Lemma length_pass_array payoff (self : BinomialOptionPricing) :
  length (pass_array payoff self) = (Z.to_nat (steps self) + 1)%nat.
Proof.
  unfold pass_array. by rewrite length_inplace_induction, length_payoff_vector.
Qed.

Lemma pricing_ok (self : BinomialOptionPricing) :
  (1 <= steps self)%Z ->
  pricing self
  = Ok (nth 0 (call_array self) (Fin 0), nth 0 (put_array self) (Fin 0),
        put_array self).
Proof.
  intros Hn. unfold pricing, call_pass, put_pass.
  rewrite !price_pass_ok by done. simpl.
  change 0%Z with (Z.of_nat 0).
  rewrite (getitem_nth _ 0 (Fin 0))
    by (unfold call_array; rewrite length_pass_array; lia).
  simpl.
  rewrite (getitem_nth _ 0 (Fin 0))
    by (unfold put_array; rewrite length_pass_array; lia).
  reflexivity.
Qed.

Lemma greeks_ok (S0 u d : npfloat) (a : list npfloat) :
  (3 <= length a)%nat ->
  greeks S0 u d a
  = Ok (delta_formula S0 u d (nth 1 a (Fin 0)) (nth 0 a (Fin 0)),
        gamma_formula S0 u d (nth 2 a (Fin 0)) (nth 1 a (Fin 0)) (nth 0 a (Fin 0))).
Proof.
  intros Ha. unfold greeks.
  change 0%Z with (Z.of_nat 0). change 1%Z with (Z.of_nat 1).
  change 2%Z with (Z.of_nat 2).
  rewrite !(getitem_nth a _ (Fin 0)) by lia. reflexivity.
Qed.

Lemma greeks_short (S0 u d : npfloat) (a : list npfloat) :
  length a = 2%nat -> greeks S0 u d a = Raise IndexError.
Proof.
  intros Ha. unfold greeks.
  change 0%Z with (Z.of_nat 0). change 1%Z with (Z.of_nat 1).
  rewrite !(getitem_nth a _ (Fin 0)) by lia. simpl.
  rewrite getitem_beyond by lia. reflexivity.
Qed.

Lemma put_array_length (self : BinomialOptionPricing) :
  length (put_array self) = (Z.to_nat (steps self) + 1)%nat.
Proof. apply length_pass_array. Qed.

Lemma run_returns (self : BinomialOptionPricing) :
  (2 <= steps self)%Z -> run self = (finished self, Ok tt).
Proof.
  intros Hn. rewrite run_decompose, factors_ok, pricing_ok by lia.
  rewrite greeks_ok by (rewrite put_array_length; lia). reflexivity.
Qed.

Lemma calculate_prices_returns (self : BinomialOptionPricing) :
  (2 <= steps self)%Z ->
  calculate_prices self
  = (finished self, Ok (call_price_of self, put_price_of self)).
Proof.
  intros Hn. rewrite calculate_prices_decompose, factors_ok, pricing_ok by lia.
  rewrite greeks_ok by (rewrite put_array_length; lia). reflexivity.
Qed.

Lemma run_single_step (self : BinomialOptionPricing) :
  steps self = 1%Z -> run self = (priced self, Raise IndexError).
Proof.
  intros Hn. rewrite run_decompose, factors_ok, pricing_ok by lia.
  rewrite greeks_short by (rewrite put_array_length, Hn; reflexivity).
  reflexivity.
Qed.

Lemma calculate_prices_single_step (self : BinomialOptionPricing) :
  steps self = 1%Z -> calculate_prices self = (self, Raise IndexError).
Proof.
  intros Hn. rewrite calculate_prices_decompose, factors_ok, pricing_ok by lia.
  rewrite greeks_short by (rewrite put_array_length, Hn; reflexivity).
  reflexivity.
Qed.

Lemma pricing_minus_one (self : BinomialOptionPricing) :
  steps self = (-1)%Z -> pricing self = Raise IndexError.
Proof.
  intros Hn. unfold pricing, call_pass, price_pass.
  rewrite factors_ok by lia. cbv beta iota zeta delta [bind].
  rewrite Hn. reflexivity.
Qed.

Lemma pricing_negative (self : BinomialOptionPricing) :
  (steps self <= -2)%Z -> pricing self = Raise ValueError.
Proof.
  intros Hn. unfold pricing, call_pass, price_pass.
  rewrite factors_ok by lia. cbv beta iota zeta delta [bind].
  unfold terminal_prices, np_zeros.
  destruct (Z.ltb_spec (steps self + 1) 0); [reflexivity | lia].
Qed.

Lemma run_zero_steps (self : BinomialOptionPricing) :
  steps self = 0%Z -> run self = (self, Raise ZeroDivisionError).
Proof. intros Hn. by rewrite run_decompose, factors_zero_steps. Qed.

Lemma run_minus_one (self : BinomialOptionPricing) :
  steps self = (-1)%Z -> run self = (self, Raise IndexError).
Proof.
  intros Hn. rewrite run_decompose, factors_ok, pricing_minus_one by lia.
  reflexivity.
Qed.

Lemma run_negative (self : BinomialOptionPricing) :
  (steps self <= -2)%Z -> run self = (self, Raise ValueError).
Proof.
  intros Hn. rewrite run_decompose, factors_ok, pricing_negative by lia.
  reflexivity.
Qed.

Lemma calculate_prices_zero_steps (self : BinomialOptionPricing) :
  steps self = 0%Z -> calculate_prices self = (self, Raise ZeroDivisionError).
Proof. intros Hn. by rewrite calculate_prices_decompose, factors_zero_steps. Qed.

(** ** Arithmetic on finite values *)

Lemma fdiv_Fin (x y : R) : y <> 0 -> fdiv (Fin x) (Fin y) = Fin (x / y).
Proof. intros Hy. simpl. by destruct (Req_dec_T y 0). Qed.

Lemma fsqrt_Fin (x : R) : 0 <= x -> fsqrt (Fin x) = Fin (sqrt x).
Proof. intros Hx. simpl. destruct (Rlt_dec x 0); [lra | done]. Qed.

Lemma fpow_nat_Fin (x : R) (n : nat) : fpow_nat (Fin x) n = Fin (x ^ n).
Proof. induction n as [|n IH]; simpl; [done|]. by rewrite IH. Qed.

Lemma fpow_Fin (x : R) (n : nat) : fpow (Fin x) (Z.of_nat n) = Fin (x ^ n).
Proof.
  unfold fpow. destruct (Z.leb_spec 0 (Z.of_nat n)); [|lia].
  by rewrite Nat2Z.id, fpow_nat_Fin.
Qed.

Lemma pymax0_Fin (x : R) : pymax0 (Fin x) = Fin (Rmax 0 x).
Proof.
  unfold pymax0, fgt, flt, Rmax.
  destruct (Rlt_dec 0 x), (Rle_dec 0 x); try done; try lra.
  f_equal. lra.
Qed.

Lemma node_value_Fin (r dt q up cur : R) :
  node_value (Fin r) (Fin dt) (Fin q) (Fin up) (Fin cur)
  = Fin (exp (- r * dt) * (q * up + (1 - q) * cur)).
Proof. reflexivity. Qed.

Lemma call_payoff_Fin (K S0 u d : R) (steps : Z) (i : nat) :
  (Z.of_nat i <= steps)%Z ->
  call_payoff (Fin K) (Fin S0) (Fin u) (Fin d) steps (Z.of_nat i)
  = Fin (Rmax 0 (S0 * u ^ i * d ^ (Z.to_nat steps - i) - K)).
Proof.
  intros Hi. unfold call_payoff.
  replace (steps - Z.of_nat i)%Z with (Z.of_nat (Z.to_nat steps - i)) by lia.
  rewrite !fpow_Fin. simpl. apply pymax0_Fin.
Qed.

Lemma put_payoff_Fin (K S0 u d : R) (steps : Z) (i : nat) :
  (Z.of_nat i <= steps)%Z ->
  put_payoff (Fin K) (Fin S0) (Fin u) (Fin d) steps (Z.of_nat i)
  = Fin (Rmax 0 (K - S0 * u ^ i * d ^ (Z.to_nat steps - i))).
Proof.
  intros Hi. unfold put_payoff.
  replace (steps - Z.of_nat i)%Z with (Z.of_nat (Z.to_nat steps - i)) by lia.
  rewrite !fpow_Fin. simpl. apply pymax0_Fin.
Qed.

Lemma payoff_vector_Fin (payoff : Z -> npfloat) (g : nat -> R) (n : nat) :
  (forall i, (i <= n)%nat -> payoff (Z.of_nat i) = Fin (g i)) ->
  payoff_vector payoff n = Fin <$> (g <$> seq 0 (n + 1)).
Proof.
  intros Hg. unfold payoff_vector. rewrite <- list_fmap_compose.
  apply list_fmap_ext. intros k i Hk.
  apply lookup_seq in Hk as [-> Hk]. simpl. apply Hg. lia.
Qed.

(** The in-place induction commutes with a map that commutes with the
    node update. *)
Section InPlaceMap.
Context {A B : Type} (h : A -> B).
Context (combineA : A -> A -> A) (combineB : B -> B -> B) (dA : A) (dB : B).
Hypothesis combine_h : forall x y, combineB (h x) (h y) = h (combineA x y).
Hypothesis dflt_h : dB = h dA.

Lemma nth_fmap_h (v : list A) (i : nat) : nth i (h <$> v) dB = h (nth i v dA).
Proof. rewrite dflt_h. apply map_nth. Qed.

Lemma inplace_overwrite_fmap (v : list A) (i : nat) :
  inplace_overwrite combineB dB (h <$> v) i
  = h <$> inplace_overwrite combineA dA v i.
Proof.
  unfold inplace_overwrite.
  by rewrite !nth_fmap_h, combine_h, list_fmap_insert.
Qed.

Lemma inplace_level_fmap (v : list A) (j : nat) :
  inplace_level combineB dB (h <$> v) j = h <$> inplace_level combineA dA v j.
Proof.
  induction j as [|j IH].
  - rewrite !inplace_level_0. apply inplace_overwrite_fmap.
  - by rewrite !inplace_level_S, IH, inplace_overwrite_fmap.
Qed.

Lemma inplace_induction_fmap (n : nat) (v : list A) :
  inplace_induction combineB dB n (h <$> v)
  = h <$> inplace_induction combineA dA n v.
Proof.
  revert v. induction n as [|n IH]; intros v; [done|].
  by rewrite !inplace_induction_S, inplace_level_fmap, IH.
Qed.
End InPlaceMap.

(** An invariant of every entry is kept if the node update keeps it. *)
Lemma inplace_induction_Forall {A : Type} (P : A -> Prop)
    (combine : A -> A -> A) (dflt : A) (n : nat) (v : list A) :
  (forall x y, P x -> P y -> P (combine x y)) -> P dflt ->
  Forall P v -> Forall P (inplace_induction combine dflt n v).
Proof.
  intros Hc Hd. unfold inplace_induction.
  apply (fold_left_invariant (Forall P)). intros j s _.
  unfold inplace_level. apply (fold_left_invariant (Forall P)). intros i s' _ Hs'.
  assert (forall k, P (nth k s' dflt)) as Hnth.
  { intros k. destruct (decide (k < length s')%nat) as [Hk|Hk].
    - rewrite Forall_forall in Hs'. apply Hs'. apply list_elem_of_In.
      by apply nth_In.
    - rewrite nth_overflow by lia. done. }
  unfold inplace_overwrite. apply Forall_insert; [done|]. apply Hc; apply Hnth.
Qed.

(** ** The factors on valid parameters *)

Lemma spec_dt_pos (T : R) (n : nat) : 0 < T -> (1 <= n)%nat -> 0 < Spec.dt T n.
Proof.
  intros HT Hn. unfold Spec.dt. apply Rdiv_lt_0_compat; [done|].
  apply lt_0_INR. lia.
Qed.

Lemma spec_u_gt_1 (T sigma : R) (n : nat) :
  0 < T -> 0 < sigma -> (1 <= n)%nat -> 1 < Spec.u T sigma n.
Proof.
  intros HT Hs Hn. unfold Spec.u. rewrite <- exp_0. apply exp_increasing.
  apply Rmult_lt_0_compat; [done|]. apply sqrt_lt_R0. by apply spec_dt_pos.
Qed.

Lemma spec_d_bounds (T sigma : R) (n : nat) :
  0 < T -> 0 < sigma -> (1 <= n)%nat -> 0 < Spec.d T sigma n < 1.
Proof.
  intros HT Hs Hn. pose proof (spec_u_gt_1 T sigma n HT Hs Hn) as Hu.
  unfold Spec.d. split.
  - apply Rdiv_lt_0_compat; lra.
  - apply Rmult_lt_reg_r with (Spec.u T sigma n); [lra|].
    unfold Rdiv. rewrite Rmult_assoc, Rinv_l by lra. lra.
Qed.

Lemma dt_of_valid (self : BinomialOptionPricing) (T : R) :
  time_to_maturity self = Fin T -> (1 <= steps self)%Z ->
  dt_of self = Fin (Spec.dt T (Z.to_nat (steps self))).
Proof.
  intros HT Hn. unfold dt_of, Spec.dt. rewrite HT.
  rewrite INR_IZR_INZ, Z2Nat.id by lia.
  apply fdiv_Fin. apply not_0_IZR. lia.
Qed.

Lemma u_of_valid (self : BinomialOptionPricing) (T sigma : R) :
  time_to_maturity self = Fin T -> volatility self = Fin sigma ->
  0 < T -> (1 <= steps self)%Z ->
  u_of self = Fin (Spec.u T sigma (Z.to_nat (steps self))).
Proof.
  intros HT Hs HT0 Hn. unfold u_of, up_factor.
  rewrite (dt_of_valid self T), Hs by done.
  rewrite fsqrt_Fin; [reflexivity|].
  apply Rlt_le, spec_dt_pos; [done | lia].
Qed.

Lemma d_of_valid (self : BinomialOptionPricing) (T sigma : R) :
  time_to_maturity self = Fin T -> volatility self = Fin sigma ->
  0 < T -> (1 <= steps self)%Z ->
  d_of self = Fin (Spec.d T sigma (Z.to_nat (steps self))).
Proof.
  intros HT Hs HT0 Hn. unfold d_of, down_factor.
  rewrite (u_of_valid self T sigma) by done.
  apply fdiv_Fin. unfold Spec.u. pose proof (exp_pos (sigma * sqrt (Spec.dt T (Z.to_nat (steps self))))). lra.
Qed.

Lemma q_of_valid (self : BinomialOptionPricing) (T sigma r : R) :
  time_to_maturity self = Fin T -> volatility self = Fin sigma ->
  interest_rate self = Fin r ->
  0 < T -> 0 < sigma -> (1 <= steps self)%Z ->
  q_of self = Fin (Spec.q T sigma r (Z.to_nat (steps self))).
Proof.
  intros HT Hs Hr HT0 Hs0 Hn. unfold q_of, risk_neutral.
  rewrite (u_of_valid self T sigma), (d_of_valid self T sigma),
    (dt_of_valid self T), Hr by done.
  simpl fexp. unfold fsub. simpl fneg. simpl fadd.
  rewrite fdiv_Fin; [reflexivity|].
  assert (1 <= Z.to_nat (steps self))%nat as Hn' by lia.
  pose proof (spec_u_gt_1 T sigma _ HT0 Hs0 Hn').
  pose proof (spec_d_bounds T sigma _ HT0 Hs0 Hn'). lra.
Qed.

(** ** The arrays on valid parameters *)

Section ValidParameters.
Variables (self : BinomialOptionPricing) (T K S0 sigma r : R).
Hypothesis Hvalid : valid_parameters self T K S0 sigma r.
Hypothesis Hsigma : 0 < sigma.
Hypothesis Hsteps : (1 <= steps self)%Z.

Let n : nat := Z.to_nat (steps self).

Lemma node_value_valid (up cur : R) :
  node_value (interest_rate self) (dt_of self) (q_of self) (Fin up) (Fin cur)
  = Fin (Spec.discounted T sigma r n up cur).
Proof using Hvalid Hsigma Hsteps.
  destruct Hvalid.
  rewrite (dt_of_valid self T), (q_of_valid self T sigma r) by done.
  rewrite vp_rate0. apply node_value_Fin.
Qed.

Lemma call_terminal_valid :
  payoff_vector
    (call_payoff (strike self) (current_price self) (u_of self) (d_of self)
                 (steps self)) n
  = Fin <$> Spec.call_terminal T K S0 sigma n.
Proof using Hvalid Hsteps.
  destruct Hvalid. unfold Spec.call_terminal. apply payoff_vector_Fin.
  intros i Hi. unfold Spec.call_payoff.
  rewrite (u_of_valid self T sigma), (d_of_valid self T sigma) by done.
  rewrite vp_strike0, vp_spot0.
  apply call_payoff_Fin. subst n. lia.
Qed.

Lemma put_terminal_valid :
  payoff_vector
    (put_payoff (strike self) (current_price self) (u_of self) (d_of self)
                (steps self)) n
  = Fin <$> Spec.put_terminal T K S0 sigma n.
Proof using Hvalid Hsteps.
  destruct Hvalid. unfold Spec.put_terminal. apply payoff_vector_Fin.
  intros i Hi. unfold Spec.put_payoff.
  rewrite (u_of_valid self T sigma), (d_of_valid self T sigma) by done.
  rewrite vp_strike0, vp_spot0.
  apply put_payoff_Fin. subst n. lia.
Qed.


Lemma put_array_valid :
  put_array self = Fin <$> Spec.put_array T K S0 sigma r n.
Proof using Hvalid Hsigma Hsteps.
  unfold put_array, pass_array. fold n. rewrite put_terminal_valid.
  unfold Spec.put_array, Spec.induction.
  apply inplace_induction_fmap; [|done].
  intros x y. apply node_value_valid.
Qed.


Lemma put_price_of_valid :
  put_price_of self = Fin (Spec.put_price T K S0 sigma r n).
Proof using Hvalid Hsigma Hsteps.
  unfold put_price_of, Spec.put_price. rewrite put_array_valid.
  apply (map_nth Fin).
Qed.

End ValidParameters.

Lemma run_succeeds_steps (self : BinomialOptionPricing) :
  succeeds (run self) -> (2 <= steps self)%Z.
Proof.
  intros [a Ha].
  destruct (Z_lt_le_dec (steps self) 2) as [Hlt|]; [exfalso | done].
  destruct (Z.eq_dec (steps self) 1%Z) as [H1|H1].
  { by rewrite run_single_step in Ha. }
  destruct (Z.eq_dec (steps self) 0%Z) as [H0|H0].
  { by rewrite run_zero_steps in Ha. }
  destruct (Z.eq_dec (steps self) (-1)%Z) as [Hm|Hm].
  { by rewrite run_minus_one in Ha. }
  rewrite run_negative in Ha by lia. done.
Qed.

Lemma run_succeeds_iff (self : BinomialOptionPricing) :
  succeeds (run self) <-> (2 <= steps self)%Z.
Proof.
  split; [apply run_succeeds_steps|].
  intros Hn. exists tt. by rewrite run_returns.
Qed.

Lemma calculate_prices_succeeds_iff (self : BinomialOptionPricing) :
  succeeds (calculate_prices self) <-> succeeds (run self).
Proof.
  unfold succeeds. rewrite run_decompose, calculate_prices_decompose.
  destruct (factors self) as [[[[dt u] d] q]|e];
    [|split; intros [? ?]; done].
  destruct (pricing self) as [[[c p] a]|e];
    [|split; intros [? ?]; done].
  destruct (greeks (current_price self) u d a) as [[delta gamma]|e]; simpl.
  - split; intros _; eauto.
  - split; intros [? ?]; done.
Qed.

(** ** Prices and the algorithm of the specification *)




(** ** A one-step lattice *)

(** C2: at [steps = 1] the put array has length 2 and the Greek read
    [option_prices[2]] is out of bounds: the pricing call raises
    [IndexError] in both files.  [run] has stored the two prices by then,
    [calculate_prices] has stored nothing. *)
Theorem single_step_pricing_raises :
  run single_step_model = (priced single_step_model, Raise IndexError)
  /\ calculate_prices single_step_model = (single_step_model, Raise IndexError)
  /\ length (put_array single_step_model) = 2%nat.
Proof.
  split; [|split].
  - by apply run_single_step.
  - by apply calculate_prices_single_step.
  - by rewrite put_array_length.
Qed.

(** ** The Greeks *)

(** C3: when [run] returns, the Greeks are read from the array the put
    pass leaves behind, at the literal indices 0, 1 and 2:
    [call_delta = (value[1] - value[0]) / (spot*u - spot*d)] and
    [call_gamma = put_gamma
       = (value[2] - 2*value[1] + value[0]) / (0.5*(spot*u - spot*d)^2)]. *)
Theorem greeks_read_put_array (self : BinomialOptionPricing) :
  succeeds (run self) ->
  exists dt u d q value v0 v1 v2,
    factors self = Ok (dt, u, d, q)
    /\ put_pass self = Ok value
    /\ getitem value 0 = Ok v0
    /\ getitem value 1 = Ok v1
    /\ getitem value 2 = Ok v2
    /\ call_delta (fst (run self))
       = Some (fdiv (fsub v1 v0)
                    (fsub (fmul (current_price self) u) (fmul (current_price self) d)))
    /\ call_gamma (fst (run self))
       = Some (fdiv (fadd (fsub v2 (fmul (Fin 2) v1)) v0)
                    (fmul (Fin 0.5)
                          (fpow (fsub (fmul (current_price self) u)
                                      (fmul (current_price self) d)) 2)))
    /\ put_gamma (fst (run self)) = call_gamma (fst (run self)).
Proof.
  intros Hok. apply run_succeeds_steps in Hok.
  exists (dt_of self), (u_of self), (d_of self), (q_of self), (put_array self).
  exists (nth 0 (put_array self) (Fin 0)), (nth 1 (put_array self) (Fin 0)),
    (nth 2 (put_array self) (Fin 0)).
  pose proof (put_array_length self) as Hlen.
  rewrite run_returns by done.
  split; [apply factors_ok; lia|].
  split; [apply price_pass_ok; lia|].
  split; [apply (getitem_nth _ 0); lia|].
  split; [apply (getitem_nth _ 1); lia|].
  split; [apply (getitem_nth _ 2); lia|].
  done.
Qed.

Lemma greeks_read_put_array_witness :
  exists dt u d q value v0 v1 v2,
    factors reference_model = Ok (dt, u, d, q)
    /\ put_pass reference_model = Ok value
    /\ getitem value 0 = Ok v0
    /\ getitem value 1 = Ok v1
    /\ getitem value 2 = Ok v2
    /\ call_delta (fst (run reference_model))
       = Some (fdiv (fsub v1 v0)
                    (fsub (fmul (current_price reference_model) u)
                          (fmul (current_price reference_model) d)))
    /\ call_gamma (fst (run reference_model))
       = Some (fdiv (fadd (fsub v2 (fmul (Fin 2) v1)) v0)
                    (fmul (Fin 0.5)
                          (fpow (fsub (fmul (current_price reference_model) u)
                                      (fmul (current_price reference_model) d)) 2)))
    /\ put_gamma (fst (run reference_model)) = call_gamma (fst (run reference_model)).
Proof.
  apply (greeks_read_put_array reference_model).
  apply run_succeeds_iff. simpl. lia.
Defined.

(** ** Fewer than one step *)




(** ** The two copies of the pricing routine *)

(** C10: on the same parameters, when [run] (model file) and
    [calculate_prices] (app file) both return, they leave the same six
    results. *)
Theorem run_calculate_prices_agree (self : BinomialOptionPricing) :
  succeeds (run self) ->
  succeeds (calculate_prices self) ->
  call_price (fst (run self)) = call_price (fst (calculate_prices self))
  /\ put_price (fst (run self)) = put_price (fst (calculate_prices self))
  /\ call_delta (fst (run self)) = call_delta (fst (calculate_prices self))
  /\ put_delta (fst (run self)) = put_delta (fst (calculate_prices self))
  /\ call_gamma (fst (run self)) = call_gamma (fst (calculate_prices self))
  /\ put_gamma (fst (run self)) = put_gamma (fst (calculate_prices self)).
Proof.
  unfold succeeds. rewrite run_decompose, calculate_prices_decompose.
  destruct (factors self) as [[[[dt u] d] q]|e]; [|by intros [? ?]].
  destruct (pricing self) as [[[c p] a]|e]; [|by intros [? ?]].
  destruct (greeks (current_price self) u d a) as [[delta gamma]|e];
    [|by intros [? ?]].
  intros _ _. simpl. done.
Qed.

Lemma run_calculate_prices_agree_witness :
  call_price (fst (run reference_model))
  = call_price (fst (calculate_prices reference_model))
  /\ put_price (fst (run reference_model))
     = put_price (fst (calculate_prices reference_model))
  /\ call_delta (fst (run reference_model))
     = call_delta (fst (calculate_prices reference_model))
  /\ put_delta (fst (run reference_model))
     = put_delta (fst (calculate_prices reference_model))
  /\ call_gamma (fst (run reference_model))
     = call_gamma (fst (calculate_prices reference_model))
  /\ put_gamma (fst (run reference_model))
     = put_gamma (fst (calculate_prices reference_model)).
Proof.
  apply (run_calculate_prices_agree reference_model).
  - apply run_succeeds_iff. simpl. lia.
  - apply calculate_prices_succeeds_iff, run_succeeds_iff. simpl. lia.
Defined.

(** ** A negative price *)

Lemma nth_Forall {A : Type} (P : A -> Prop) (l : list A) (i : nat) (dflt : A) :
  Forall P l -> P dflt -> P (nth i l dflt).
Proof.
  intros Hl Hd. destruct (decide (i < length l)%nat) as [Hi|Hi].
  - rewrite Forall_forall in Hl. apply Hl, list_elem_of_In. by apply nth_In.
  - by rewrite nth_overflow by lia.
Qed.

Lemma inplace_two_steps {A : Type} (f : A -> A -> A) (dflt a b c : A) :
  inplace_induction f dflt 2 [a; b; c] = [f (f c b) (f b a); f c b; c].
Proof. reflexivity. Qed.

Lemma spec_put_terminal_two (T K S0 sigma : R) :
  Spec.put_terminal T K S0 sigma 2
  = [Rmax 0 (K - S0 * Spec.u T sigma 2 ^ 0 * Spec.d T sigma 2 ^ 2);
     Rmax 0 (K - S0 * Spec.u T sigma 2 ^ 1 * Spec.d T sigma 2 ^ 1);
     Rmax 0 (K - S0 * Spec.u T sigma 2 ^ 2 * Spec.d T sigma 2 ^ 0)].
Proof. reflexivity. Qed.

Lemma steep_rate_spec_put_price : Spec.put_price 2 2 1 1 2 2 < 0.
Proof.
  unfold Spec.put_price, Spec.put_array, Spec.induction.
  rewrite spec_put_terminal_two, inplace_two_steps. simpl nth.
  assert (Spec.dt 2 2 = 1) as Hdt by (unfold Spec.dt; simpl; lra).
  assert (Spec.u 2 1 2 = exp 1) as Hu.
  { unfold Spec.u. rewrite Hdt, sqrt_1. f_equal. lra. }
  assert (2 < exp 1) as He by (pose proof (exp_ineq1 1); lra).
  assert (exp 1 < exp (2 * 1)) as He2 by (apply exp_increasing; lra).
  unfold Spec.discounted, Spec.q, Spec.d. rewrite Hu, Hdt.
  pose proof (exp_pos (- (2) * 1)) as Hdisc.
  set (u := exp 1) in *. set (E := exp (2 * 1)) in *.
  set (disc := exp (- (2) * 1)) in *.
  assert (0 < 1 / u < 1 / 2) as Hd.
  { unfold Rdiv. rewrite Rmult_1_l. split; [apply Rinv_0_lt_compat; lra|].
    apply Rmult_lt_reg_r with u; [lra|]. rewrite Rinv_l by lra. lra. }
  assert (u * (1 / u) = 1) as Hud by (field; lra).
  set (d := 1 / u) in *.
  assert (1 < (E - d) / (u - d)) as Hq.
  { apply Rmult_lt_reg_r with (u - d); [lra|].
    unfold Rdiv. rewrite Rmult_assoc, Rinv_l by lra. lra. }
  set (q := (E - d) / (u - d)) in *.
  replace (Rmax 0 (2 - 1 * (u * (u * 1)) * 1)) with 0
    by (rewrite Rmax_left; [done | nra]).
  replace (Rmax 0 (2 - 1 * (u * 1) * (d * 1))) with 1
    by (rewrite Rmax_right; lra).
  replace (Rmax 0 (2 - 1 * 1 * (d * (d * 1)))) with (2 - d * d)
    by (rewrite Rmax_right; [lra | nra]).
  replace (disc * (q * (disc * (q * 0 + (1 - q) * 1))
                   + (1 - q) * (disc * (q * 1 + (1 - q) * (2 - d * d)))))
    with (- (disc * disc * ((q - 1) * (2 + (q - 1) * (d * d))))) by ring.
  assert (0 < disc * disc) by nra.
  assert (0 < d * d) by (apply Rmult_lt_0_compat; lra).
  assert (0 < (q - 1) * (d * d)) by (apply Rmult_lt_0_compat; lra).
  assert (0 < (q - 1) * (2 + (q - 1) * (d * d)))
    by (apply Rmult_lt_0_compat; lra).
  assert (0 < disc * disc * ((q - 1) * (2 + (q - 1) * (d * d))))
    by (apply Rmult_lt_0_compat; lra).
  lra.
Qed.

Lemma fge_Fin_zero (x : R) : fge (Fin x) (Fin 0) = true <-> 0 <= x.
Proof.
  unfold fge, fle, flt, feq.
  destruct (Rlt_dec 0 x), (Req_dec_T 0 x); simpl; split; intros; try done; lra.
Qed.

Lemma steep_rate_model_valid : valid_parameters steep_rate_model 2 2 1 1 2.
Proof. split; simpl; try reflexivity; lra. Qed.

(** C5 as stated fails when the risk-neutral probability leaves [0,1]:
    with [time_to_maturity = 2], [strike = 2], [current_price = 1],
    [volatility = 1], [interest_rate = 2] and [steps = 2], [q > 1], the
    call returns and the put price is negative. *)
Lemma steep_rate_put_price_negative :
  valid_parameters steep_rate_model 2 2 1 1 2
  /\ (1 <= steps steep_rate_model)%Z
  /\ snd (run steep_rate_model) = Ok tt
  /\ exists p, put_price (fst (run steep_rate_model)) = Some (Fin p)
               /\ p < 0
               /\ fge (Fin p) (Fin 0) = false.
Proof.
  split; [apply steep_rate_model_valid|]. split; [simpl; lia|].
  rewrite run_returns by (simpl; lia). split; [reflexivity|].
  exists (Spec.put_price 2 2 1 1 2 2).
  pose proof steep_rate_spec_put_price as Hneg.
  split; [|split; [done|]].
  - change (put_price (fst (finished steep_rate_model, Ok tt)))
      with (Some (put_price_of steep_rate_model)).
    f_equal.
    apply (put_price_of_valid steep_rate_model 2 2 1 1 2 steep_rate_model_valid);
      [lra | simpl; lia].
  - destruct (fge (Fin (Spec.put_price 2 2 1 1 2 2)) (Fin 0)) eqn:Hge; [|done].
    apply fge_Fin_zero in Hge. lra.
Qed.

Lemma zero_rate_model_valid : valid_parameters zero_rate_model 1 100 100 0.2 0.
Proof. split; simpl; try reflexivity; lra. Qed.

Lemma zero_rate_probability : 0 <= Spec.q 1 0.2 0 2 <= 1.
Proof.
  assert (1 < Spec.u 1 0.2 2) as Hu by (apply spec_u_gt_1; [lra | lra | lia]).
  assert (0 < Spec.d 1 0.2 2 < 1) as Hd by (apply spec_d_bounds; [lra | lra | lia]).
  unfold Spec.q. rewrite Rmult_0_l, exp_0.
  set (u := Spec.u 1 0.2 2) in *. set (d := Spec.d 1 0.2 2) in *.
  split.
  - apply Rmult_le_reg_r with (u - d); [lra|].
    unfold Rdiv. rewrite Rmult_assoc, Rinv_l by lra. lra.
  - apply Rmult_le_reg_r with (u - d); [lra|].
    unfold Rdiv. rewrite Rmult_assoc, Rinv_l by lra. lra.
Qed.

(** ** Zero volatility: the lattice degenerates to NaN *)

Lemma node_value_nonfinite (r dt : R) (q up cur : npfloat) :
  nonfinite q -> nan_or_nonneg up -> nan_or_nonneg cur ->
  node_value (Fin r) (Fin dt) q up cur = NaN.
Proof.
  intros Hq Hup Hcur. unfold node_value.
  destruct Hq as [-> | [-> | ->]];
    destruct Hup as [-> | (x & -> & Hx)];
    destruct Hcur as [-> | (y & -> & Hy)];
    simpl; try reflexivity; unfold Rsgn;
    repeat match goal with
           | |- context [Rlt_dec ?a ?b] => destruct (Rlt_dec a b)
           end; simpl; try reflexivity; lra.
Qed.

Lemma fold_left_ext_invariant {A S : Type} (I : S -> Prop) (f g : S -> A -> S)
    (l : list A) (s : S) :
  (forall x s, x ∈ l -> I s -> f s x = g s x /\ I (g s x)) -> I s ->
  fold_left f l s = fold_left g l s /\ I (fold_left g l s).
Proof.
  revert s. induction l as [|x l IH]; intros s Hfg Hs; simpl; [done|].
  destruct (Hfg x s) as [-> Hs']; [left | done |].
  apply IH; [|done]. intros y s' Hy. apply Hfg. by right.
Qed.

Section Degenerate.
Variables (r dt : R) (q : npfloat).
Hypothesis Hq : nonfinite q.

Let update := node_value (Fin r) (Fin dt) q.

Lemma nth_nan_or_nonneg (v : list npfloat) (k : nat) :
  Forall nan_or_nonneg v -> nan_or_nonneg (nth k v (Fin 0)).
Proof.
  intros Hv. apply (nth_Forall nan_or_nonneg); [done|].
  right. exists 0. split; [done | lra].
Qed.

Lemma degenerate_overwrite (v : list npfloat) (i : nat) :
  Forall nan_or_nonneg v ->
  inplace_overwrite update (Fin 0) v i = <[i := NaN]> v.
Proof using Hq.
  intros Hv. unfold inplace_overwrite, update.
  by rewrite node_value_nonfinite by auto using nth_nan_or_nonneg.
Qed.

Lemma degenerate_level (v : list npfloat) (j : nat) :
  Forall nan_or_nonneg v ->
  inplace_level update (Fin 0) v j
  = fold_left (fun s i => <[i := NaN]> s) (seq 0 (j + 1)) v
  /\ Forall nan_or_nonneg (inplace_level update (Fin 0) v j).
Proof using Hq.
  intros Hv. unfold inplace_level.
  destruct (fold_left_ext_invariant (Forall nan_or_nonneg)
              (inplace_overwrite update (Fin 0))
              (fun s i => <[i := NaN]> s) (seq 0 (j + 1)) v) as [Heq Hinv];
    [| done | by rewrite Heq].
  intros i s _ Hs. split; [by apply degenerate_overwrite|].
  apply Forall_insert; [done | by left].
Qed.

(** One level turns entries [0..j] into NaN and leaves the others. *)
Lemma degenerate_level_lookup (v : list npfloat) (j k : nat) :
  Forall nan_or_nonneg v -> (j + 1 <= length v)%nat ->
  inplace_level update (Fin 0) v j !! k
  = if decide (k < j + 1)%nat then Some NaN else v !! k.
Proof using Hq.
  intros Hv Hj. destruct (degenerate_level v j Hv) as [-> _].
  by apply (lookup_fold_insert (fun _ => NaN)).
Qed.

(** After at least one level, every entry below [m] is NaN, where [m]
    levels have been started from. *)
Lemma degenerate_induction (n m : nat) (v : list npfloat) :
  (n <= m)%nat -> (m + 1 <= length v)%nat ->
  Forall nan_or_nonneg v ->
  (forall k, (k < m)%nat -> v !! k = Some NaN) ->
  forall k, (k < m)%nat ->
    inplace_induction update (Fin 0) n v !! k = Some NaN.
Proof using Hq.
  intros Hn Hm Hv Hnan. unfold inplace_induction.
  apply (fold_left_invariant
           (fun s => length s = length v /\ Forall nan_or_nonneg s
                     /\ forall k, (k < m)%nat -> s !! k = Some NaN));
    [|done].
  intros j s Hj (Hlen & Hs & Hsn).
  apply elem_of_reverse, elem_of_seq0 in Hj.
  split; [by rewrite length_inplace_level|].
  split; [by apply degenerate_level|].
  intros k Hk. rewrite degenerate_level_lookup by (done || lia).
  destruct (decide (k < j + 1)%nat); [done | by apply Hsn].
Qed.

Lemma degenerate_array (n : nat) (v : list npfloat) (k : nat) :
  length v = (n + 1)%nat -> Forall nan_or_nonneg v -> (k < n)%nat ->
  nth k (inplace_induction update (Fin 0) n v) (Fin 0) = NaN.
Proof using Hq.
  intros Hlen Hv Hk. apply nth_lookup_Some with (d := Fin 0).
  destruct n as [|n]; [lia|]. rewrite inplace_induction_S.
  destruct (degenerate_level v n Hv) as [_ Hv'].
  apply (degenerate_induction n (S n)); try done; try lia.
  - rewrite length_inplace_level. lia.
  - intros i Hi. rewrite degenerate_level_lookup by (done || lia).
    destruct (decide (i < n + 1)%nat); [done | lia].
Qed.
End Degenerate.

Lemma inf_of_nonfinite (s : sgn) : nonfinite (inf_of s).
Proof. destruct s; unfold nonfinite; simpl; auto. Qed.

Lemma spec_u_zero_volatility (T : R) (n : nat) : Spec.u T 0 n = 1.
Proof. unfold Spec.u. by rewrite Rmult_0_l, exp_0. Qed.

Lemma spec_d_zero_volatility (T : R) (n : nat) : Spec.d T 0 n = 1.
Proof. unfold Spec.d. rewrite spec_u_zero_volatility. lra. Qed.

Lemma Forall_Fin_nonneg (v : list R) :
  Forall (Rle 0) v -> Forall nan_or_nonneg (Fin <$> v).
Proof.
  intros Hv. apply Forall_fmap. eapply Forall_impl; [exact Hv|].
  intros x Hx. right. by exists x.
Qed.

Section ZeroVolatility.
Variables (self : BinomialOptionPricing) (T K S0 r : R).
Hypothesis Hvalid : valid_parameters self T K S0 0 r.
Hypothesis Hsteps : (1 <= steps self)%Z.

Let n : nat := Z.to_nat (steps self).

Lemma zero_volatility_u : u_of self = Fin 1.
Proof using Hvalid Hsteps.
  destruct Hvalid.
  by rewrite (u_of_valid self T 0), spec_u_zero_volatility.
Qed.

Lemma zero_volatility_d : d_of self = Fin 1.
Proof using Hvalid Hsteps.
  destruct Hvalid.
  by rewrite (d_of_valid self T 0), spec_d_zero_volatility.
Qed.

(** [u - d] is zero and numpy's division returns an infinity or NaN. *)
Lemma zero_volatility_q : nonfinite (q_of self).
Proof using Hvalid Hsteps.
  unfold q_of, risk_neutral. rewrite zero_volatility_u, zero_volatility_d.
  destruct Hvalid. rewrite (dt_of_valid self T), vp_rate0 by done.
  simpl. destruct (Req_dec_T (1 + - (1)) 0) as [_|Hne]; [|lra].
  apply inf_of_nonfinite.
Qed.

Lemma zero_volatility_pass payoff (g : nat -> R) (k : nat) :
  payoff_vector
    (payoff (strike self) (current_price self) (u_of self) (d_of self) (steps self)) n
  = Fin <$> (g <$> seq 0 (n + 1)) ->
  (forall i, 0 <= g i) ->
  (k < n)%nat ->
  nth k (pass_array payoff self) (Fin 0) = NaN.
Proof using Hvalid Hsteps.
  intros Hterm Hg Hk. unfold pass_array. fold n. rewrite Hterm.
  pose proof zero_volatility_q as Hq.
  destruct Hvalid. rewrite (dt_of_valid self T), vp_rate0 by done.
  apply degenerate_array; [done | | | done].
  - by rewrite !length_fmap, length_seq.
  - apply Forall_Fin_nonneg, Forall_fmap, Forall_forall. intros i _. apply Hg.
Qed.

Lemma zero_volatility_call_array (k : nat) :
  (k < n)%nat -> nth k (call_array self) (Fin 0) = NaN.
Proof using Hvalid Hsteps.
  intros Hk.
  apply (zero_volatility_pass call_payoff (Spec.call_payoff T K S0 0 n));
    [| intros i; apply Rmax_l | done].
  apply (call_terminal_valid self T K S0 0 r Hvalid Hsteps).
Qed.

Lemma zero_volatility_put_array (k : nat) :
  (k < n)%nat -> nth k (put_array self) (Fin 0) = NaN.
Proof using Hvalid Hsteps.
  intros Hk.
  apply (zero_volatility_pass put_payoff (Spec.put_payoff T K S0 0 n));
    [| intros i; apply Rmax_l | done].
  apply (put_terminal_valid self T K S0 0 r Hvalid Hsteps).
Qed.
End ZeroVolatility.

Lemma zero_volatility_run (self : BinomialOptionPricing) (T K S0 r : R) :
  valid_parameters self T K S0 0 r ->
  (2 <= steps self)%Z ->
  run self = (finished self, Ok tt)
  /\ call_price (finished self) = Some NaN
  /\ put_price (finished self) = Some NaN
  /\ call_delta (finished self) = Some NaN
  /\ put_delta (finished self) = Some NaN
  /\ call_gamma (finished self) = Some NaN
  /\ put_gamma (finished self) = Some NaN.
Proof.
  intros Hv Hn. split; [by apply run_returns|].
  assert (1 <= steps self)%Z as Hn1 by lia.
  pose proof (zero_volatility_call_array self T K S0 r Hv Hn1 0) as Hc0.
  pose proof (zero_volatility_put_array self T K S0 r Hv Hn1 0) as Hp0.
  pose proof (zero_volatility_put_array self T K S0 r Hv Hn1 1) as Hp1.
  assert (call_price_of self = NaN) as Hc by (apply Hc0; lia).
  assert (put_price_of self = NaN) as Hp by (apply Hp0; lia).
  assert (delta_of self = NaN) as Hd.
  { unfold delta_of, delta_formula. rewrite Hp0, Hp1 by lia. reflexivity. }
  assert (gamma_of self = NaN) as Hg.
  { unfold gamma_of, gamma_formula. rewrite Hp0, Hp1 by lia.
    by destruct (nth 2 (put_array self) (Fin 0)). }
  unfold finished, priced. simpl. rewrite Hc, Hp, Hd, Hg. done.
Qed.



Lemma zero_volatility_model_valid :
  valid_parameters zero_volatility_model 1 100 100 0 0.05.
Proof. split; simpl; try reflexivity; lra. Qed.


(** ** Delta parity at zero volatility *)

(** C4 as stated fails on a call that returns with a NaN delta: at zero
    volatility [put_delta + call_delta] is NaN, which is not [1], and the
    shared gamma is NaN, which is not equal to itself under [==]. *)
Lemma zero_volatility_breaks_delta_parity :
  succeeds (run zero_volatility_model)
  /\ exists cd pd cg pg,
       call_delta (fst (run zero_volatility_model)) = Some cd
       /\ put_delta (fst (run zero_volatility_model)) = Some pd
       /\ call_gamma (fst (run zero_volatility_model)) = Some cg
       /\ put_gamma (fst (run zero_volatility_model)) = Some pg
       /\ feq (fadd pd cd) (Fin 1) = false
       /\ feq cg pg = false.
Proof.
  destruct (zero_volatility_run zero_volatility_model 1 100 100 0.05
              zero_volatility_model_valid)
    as (Hrun & _ & _ & Hcd & Hpd & Hcg & Hpg); [simpl; lia|].
  split; [exists tt; by rewrite Hrun|].
  exists NaN, NaN, NaN, NaN. rewrite Hrun. simpl fst. done.
Qed.

(** ** The parameter sweep *)

Lemma for_indexed {A St : Type} (I : nat -> St -> Prop) (l : list A)
    (body : A -> St -> result St) (s : St) :
  I 0%nat s ->
  (forall k x s, l !! k = Some x -> I k s ->
     exists s', body x s = Ok s' /\ I (S k) s') ->
  exists s', for_ l body s = Ok s' /\ I (length l) s'.
Proof.
  revert I s. induction l as [|x l IH]; intros I s Hs Hbody; simpl.
  - by exists s.
  - destruct (Hbody 0%nat x s) as (s1 & -> & Hs1); [done | done |]. simpl.
    apply (IH (fun k => I (S k))); [done|].
    intros k y s' Hy. by apply (Hbody (S k)).
Qed.

Lemma enumerate_lookup {A : Type} (l : list A) (k : nat) (z : Z) (x : A) :
  enumerate l !! k = Some (z, x) -> z = Z.of_nat k /\ l !! k = Some x.
Proof.
  unfold enumerate. rewrite range_nat.
  intros (z' & x' & [= -> ->] & Hz & Hx)%lookup_zip_with_Some.
  apply list_lookup_fmap_Some in Hz as (i & -> & Hi).
  apply lookup_seq in Hi as [-> _]. done.
Qed.

Lemma length_enumerate {A : Type} (l : list A) : length (enumerate l) = length l.
Proof.
  unfold enumerate. rewrite range_nat.
  rewrite length_zip_with_r_eq; [done|]. by rewrite length_fmap, length_seq.
Qed.

Lemma setitem2_nat (g : grid) (i j : nat) (v : npfloat) (row : list npfloat) :
  g !! i = Some row -> (j < length row)%nat ->
  setitem2 g (Z.of_nat i) (Z.of_nat j) v = Ok (alter (<[j := v]>) i g).
Proof.
  intros Hrow Hj. unfold setitem2.
  rewrite (getitem_nat g i row) by done. simpl.
  rewrite setitem_nat by done. simpl.
  rewrite setitem_nat by (by eapply lookup_lt_Some). f_equal.
  apply list_eq. intros k. destruct (decide (k = i)) as [->|Hk].
  - rewrite list_lookup_insert_eq by (by eapply lookup_lt_Some).
    by rewrite list_lookup_alter_eq, Hrow.
  - by rewrite list_lookup_insert_ne, list_lookup_alter_ne.
Qed.

Lemma has_shape_alter (n m : nat) (g : grid) (i j : nat) (v : npfloat) :
  has_shape n m g -> has_shape n m (alter (<[j := v]>) i g).
Proof.
  intros [Hlen Hrows]. split; [by rewrite length_alter|].
  apply Forall_alter; [done|]. intros row Hr. by rewrite length_insert.
Qed.

Lemma has_shape_row (n m : nat) (g : grid) (i : nat) :
  has_shape n m g -> (i < n)%nat ->
  exists row, g !! i = Some row /\ length row = m.
Proof.
  intros [Hlen Hrows] Hi.
  destruct (lookup_lt_is_Some_2 g i) as [row Hrow]; [lia|].
  exists row. split; [done|].
  rewrite Forall_forall in Hrows. apply Hrows. by eapply list_elem_of_lookup_2.
Qed.

Lemma cell_alter (g : grid) (i j i' j' : nat) (v : npfloat) (row : list npfloat) :
  g !! i = Some row -> (j < length row)%nat ->
  cell (alter (<[j := v]>) i g) i' j'
  = if decide (i' = i /\ j' = j) then Some v else cell g i' j'.
Proof.
  intros Hrow Hj. unfold cell.
  destruct (decide (i' = i)) as [->|Hi].
  - rewrite list_lookup_alter_eq, Hrow. simpl.
    destruct (decide (j' = j)) as [->|Hj'].
    + rewrite list_lookup_insert_eq by done.
      destruct (decide (i = i /\ j = j)); [done | tauto].
    + rewrite list_lookup_insert_ne by done.
      destruct (decide (i = i /\ j' = j)); [tauto | done].
  - rewrite list_lookup_alter_ne by done.
    destruct (decide (i' = i /\ j' = j)); [tauto | done].
Qed.

Lemma np_zeros2_shape (n m : nat) : has_shape n m (np_zeros2 n m).
Proof.
  unfold np_zeros2. split; [apply length_replicate|].
  apply Forall_replicate. apply length_replicate.
Qed.

Section Sweep.
Variables (binomial_model : BinomialOptionPricing).
Variables (spot_range vol_range : list npfloat) (strike : npfloat).
Hypothesis Hcells : forall vol spot,
  vol ∈ vol_range -> spot ∈ spot_range ->
  succeeds (calculate_prices (cell_model binomial_model strike spot vol)).

Let call_of (vol spot : npfloat) : npfloat :=
  call_price_of (cell_model binomial_model strike spot vol).
Let put_of (vol spot : npfloat) : npfloat :=
  put_price_of (cell_model binomial_model strike spot vol).
Let filled := sweep_filled spot_range vol_range call_of put_of.

Lemma sweep_cell_call (vol spot : npfloat) :
  vol ∈ vol_range -> spot ∈ spot_range ->
  calculate_prices (cell_model binomial_model strike spot vol)
  = (finished (cell_model binomial_model strike spot vol),
     Ok (call_of vol spot, put_of vol spot)).
Proof using Hcells.
  intros Hv Hs. apply calculate_prices_returns.
  by apply run_succeeds_steps, calculate_prices_succeeds_iff, Hcells.
Qed.

Lemma sweep_row (i : nat) (vol : npfloat) (grids : grid * grid) :
  vol_range !! i = Some vol ->
  filled i 0%nat grids ->
  exists grids',
    for_ (enumerate spot_range)
      (fun '(j, spot) '(call_prices, put_prices) =>
         let binomial_temp :=
           __init__ (time_to_maturity binomial_model) strike spot vol
                    (interest_rate binomial_model) (steps binomial_model) in
         let '(binomial_temp, outcome) := calculate_prices binomial_temp in
         _ <- outcome ;;
         c <- attribute (call_price binomial_temp) ;;
         call_prices <- setitem2 call_prices (Z.of_nat i) j c ;;
         p <- attribute (put_price binomial_temp) ;;
         put_prices <- setitem2 put_prices (Z.of_nat i) j p ;;
         Ok (call_prices, put_prices))
      grids = Ok grids'
    /\ filled (S i) 0%nat grids'.
Proof using Hcells.
  intros Hvol Hstart.
  assert (i < length vol_range)%nat as Hi by (by eapply lookup_lt_Some).
  match goal with |- exists g, for_ ?l ?b ?s = _ /\ _ =>
    destruct (for_indexed (fun j => filled i j) l b s) as (grids' & Hrun & Hend)
  end; [done | |].
  - intros j [z spot] [cg pg] Hj (Hcg & Hpg & Hfilled).
    apply enumerate_lookup in Hj as [-> Hspot].
    assert (j < length spot_range)%nat as Hjlt by (by eapply lookup_lt_Some).
    cbv beta iota zeta.
    change (__init__ (time_to_maturity binomial_model) strike spot vol
              (interest_rate binomial_model) (steps binomial_model))
      with (cell_model binomial_model strike spot vol).
    rewrite sweep_cell_call
      by (by eapply list_elem_of_lookup_2).
    destruct (has_shape_row _ _ cg i Hcg Hi) as (crow & Hcrow & Hclen).
    destruct (has_shape_row _ _ pg i Hpg Hi) as (prow & Hprow & Hplen).
    simpl. rewrite (setitem2_nat cg i j _ crow) by (done || lia). simpl.
    rewrite (setitem2_nat pg i j _ prow) by (done || lia). simpl.
    eexists. split; [reflexivity|].
    split; [by apply has_shape_alter|]. split; [by apply has_shape_alter|].
    intros i' j' vol' spot' Hvol' Hspot' Hpos. simpl.
    rewrite (cell_alter cg i j i' j' _ crow), (cell_alter pg i j i' j' _ prow)
      by (done || lia).
    destruct (decide (i' = i /\ j' = j)) as [[-> ->]|Hne].
    + by replace vol' with vol by congruence; replace spot' with spot by congruence.
    + apply Hfilled; [done | done | lia].
  - rewrite length_enumerate in Hend. exists grids'. split; [done|].
    destruct Hend as (Hcg & Hpg & Hfilled). split; [done|]. split; [done|].
    intros i' j' vol' spot' Hvol' Hspot' Hpos. apply Hfilled; [done | done |].
    assert (j' < length spot_range)%nat by (by eapply lookup_lt_Some). lia.
Qed.

Lemma sweep_all :
  exists grids,
    price_grids binomial_model spot_range vol_range strike = Ok grids
    /\ filled (length vol_range) 0%nat grids.
Proof using Hcells.
  unfold price_grids.
  match goal with |- exists g, for_ ?l ?b ?s = _ /\ _ =>
    destruct (for_indexed (fun i => filled i 0%nat) l b s) as (grids & Hrun & Hend)
  end.
  - split; [apply np_zeros2_shape|]. split; [apply np_zeros2_shape|].
    intros i' j' vol spot _ _ Hpos. lia.
  - intros i [z vol] grids Hi Hfilled.
    apply enumerate_lookup in Hi as [-> Hvol].
    by apply sweep_row.
  - rewrite length_enumerate in Hend. by exists grids.
Qed.
End Sweep.

Lemma plot_heatmap_decompose {figure : Type}
    (draw_heatmap : title -> grid -> list npfloat -> list npfloat -> result figure)
    (np_round : list npfloat -> Z -> list npfloat)
    (binomial_model : BinomialOptionPricing)
    (spot_range vol_range : list npfloat) (strike : npfloat) :
  plot_heatmap draw_heatmap np_round binomial_model spot_range vol_range strike
  = match price_grids binomial_model spot_range vol_range strike with
    | Ok (call_prices, put_prices) =>
        draw_figures draw_heatmap np_round spot_range vol_range call_prices put_prices
    | Raise e => Raise e
    end.
Proof.
  unfold plot_heatmap, price_grids, draw_figures.
  by destruct (for_ _ _ _) as [[call_prices put_prices]|e].
Qed.

(** C8: the sweep over pricing calls that return.  [plot_heatmap] fills a
    call grid and a put grid of shape [len(vol_range) x len(spot_range)],
    cell [[i][j]] of each holding the price computed by a pricing call of
    its own, on a fresh instance with [volatility = vol_range[i]],
    [current_price = spot_range[j]], the given strike and the base
    maturity, rate and steps; these two grids are what it hands to the
    drawing calls. *)
Theorem plot_heatmap_cells {figure : Type}
    (draw_heatmap : title -> grid -> list npfloat -> list npfloat -> result figure)
    (np_round : list npfloat -> Z -> list npfloat)
    (binomial_model : BinomialOptionPricing)
    (spot_range vol_range : list npfloat) (strike : npfloat) :
  (forall i j vol spot,
     vol_range !! i = Some vol -> spot_range !! j = Some spot ->
     succeeds (calculate_prices
                 (__init__ (time_to_maturity binomial_model) strike spot vol
                           (interest_rate binomial_model) (steps binomial_model)))) ->
  exists call_prices put_prices,
    price_grids binomial_model spot_range vol_range strike
    = Ok (call_prices, put_prices)
    /\ plot_heatmap draw_heatmap np_round binomial_model spot_range vol_range strike
       = draw_figures draw_heatmap np_round spot_range vol_range call_prices put_prices
    /\ has_shape (length vol_range) (length spot_range) call_prices
    /\ has_shape (length vol_range) (length spot_range) put_prices
    /\ forall i j vol spot,
         vol_range !! i = Some vol -> spot_range !! j = Some spot ->
         exists binomial_temp c p,
           calculate_prices
             (__init__ (time_to_maturity binomial_model) strike spot vol
                       (interest_rate binomial_model) (steps binomial_model))
           = (binomial_temp, Ok (c, p))
           /\ call_price binomial_temp = Some c
           /\ put_price binomial_temp = Some p
           /\ cell call_prices i j = Some c
           /\ cell put_prices i j = Some p.
Proof.
  intros Hcells.
  assert (forall vol spot, vol ∈ vol_range -> spot ∈ spot_range ->
            succeeds (calculate_prices (cell_model binomial_model strike spot vol)))
    as Hcells'.
  { intros vol spot [i Hi]%list_elem_of_lookup_1 [j Hj]%list_elem_of_lookup_1.
    by apply (Hcells i j). }
  destruct (sweep_all binomial_model spot_range vol_range strike Hcells')
    as ([cg pg] & Hrun & Hcg & Hpg & Hfilled).
  exists cg, pg. split; [done|].
  split; [by rewrite plot_heatmap_decompose, Hrun|].
  split; [done|]. split; [done|].
  intros i j vol spot Hvol Hspot.
  exists (finished (cell_model binomial_model strike spot vol)),
    (call_price_of (cell_model binomial_model strike spot vol)),
    (put_price_of (cell_model binomial_model strike spot vol)).
  split.
  { apply (sweep_cell_call binomial_model spot_range vol_range strike Hcells');
      by eapply list_elem_of_lookup_2. }
  split; [reflexivity|]. split; [reflexivity|].
  apply (Hfilled i j vol spot Hvol Hspot).
  assert (i < length vol_range)%nat by (by eapply lookup_lt_Some). lia.
Qed.

Lemma plot_heatmap_cells_witness :
  exists call_prices put_prices,
    price_grids reference_model heatmap_spot_range heatmap_vol_range (Fin 90)
    = Ok (call_prices, put_prices)
    /\ plot_heatmap record_grid (fun l _ => l) reference_model
         heatmap_spot_range heatmap_vol_range (Fin 90)
       = draw_figures record_grid (fun l _ => l)
           heatmap_spot_range heatmap_vol_range call_prices put_prices
    /\ has_shape (length heatmap_vol_range) (length heatmap_spot_range) call_prices
    /\ has_shape (length heatmap_vol_range) (length heatmap_spot_range) put_prices
    /\ forall i j vol spot,
         heatmap_vol_range !! i = Some vol -> heatmap_spot_range !! j = Some spot ->
         exists binomial_temp c p,
           calculate_prices
             (__init__ (time_to_maturity reference_model) (Fin 90) spot vol
                       (interest_rate reference_model) (steps reference_model))
           = (binomial_temp, Ok (c, p))
           /\ call_price binomial_temp = Some c
           /\ put_price binomial_temp = Some p
           /\ cell call_prices i j = Some c
           /\ cell put_prices i j = Some p.
Proof.
  apply (plot_heatmap_cells record_grid (fun l _ => l) reference_model
           heatmap_spot_range heatmap_vol_range (Fin 90)).
  intros i j vol spot _ _.
  apply calculate_prices_succeeds_iff, run_succeeds_iff. simpl. lia.
Defined.

(** ** The residual array and the lattice

    What the in-place induction leaves behind: entry [i] is overwritten for
    the last time at level [i], so it keeps the value of node [i] of level
    [i], the node reached by [i] up-moves in [i] steps.  Entry [0] is the
    root of the lattice, the price; entries [1] and [2], which the Greeks
    read with it, belong to levels one and two. *)

Section Residual.
Context {A : Type} (combine : A -> A -> A) (dflt : A).






End Residual.




(** * Properties under rounding *)

(** ** Order on the values *)

Ltac float_cases :=
  unfold not_negative, pymax0, fge, fgt, fle, flt, feq in *;
  repeat match goal with
  | |- context [Rlt_dec ?x ?y] => destruct (Rlt_dec x y)
  | |- context [Req_dec_T ?x ?y] => destruct (Req_dec_T x y)
  | H : context [Rlt_dec ?x ?y] |- _ => destruct (Rlt_dec x y)
  | H : context [Req_dec_T ?x ?y] |- _ => destruct (Req_dec_T x y)
  end;
  simpl in *; try done; try lra.

Lemma fle_Fin (x y : R) : fle (Fin x) (Fin y) = true <-> x <= y.
Proof. split; intros H; float_cases. Qed.

Lemma fle_Fin_l (c : R) (a : npfloat) :
  fle (Fin c) a = true <-> a = PInf \/ exists x, a = Fin x /\ c <= x.
Proof.
  split.
  - intros H. destruct a as [x| | |]; [right | by left | done | done].
    exists x. split; [done|]. by apply fle_Fin.
  - intros [-> | (x & -> & Hx)]; [done | by apply fle_Fin].
Qed.

Lemma not_negative_cases (a : npfloat) :
  not_negative a <-> a = NaN \/ a = PInf \/ exists x, a = Fin x /\ 0 <= x.
Proof.
  split.
  - intros H. destruct a as [x| | |]; [|auto | done | auto].
    right. right. exists x. split; [done|]. float_cases.
  - intros [-> | [-> | (x & -> & Hx)]]; [done | done | float_cases].
Qed.

Lemma not_negative_fle (a : npfloat) : fle (Fin 0) a = true -> not_negative a.
Proof.
  intros [-> | (x & -> & Hx)]%fle_Fin_l; apply not_negative_cases; eauto.
Qed.

Lemma not_negative_pymax0 (a : npfloat) : not_negative (pymax0 a).
Proof. destruct a; float_cases. Qed.

(** ** What the laws give *)

Section Laws.
Variable A : Rounded.arithmetic.
Hypothesis HA : Rounded.float_laws A.

Lemma round_not_negative (x : R) :
  0 <= x ->
  Rounded.round A x = PInf \/ exists y, Rounded.round A x = Fin y /\ 0 <= y.
Proof using HA.
  intros Hx. apply fle_Fin_l.
  rewrite <- (Rounded.round_0 A HA). by apply Rounded.round_monotone.
Qed.

Lemma round_unit (x : R) :
  0 <= x <= 1 -> exists y, Rounded.round A x = Fin y /\ 0 <= y <= 1.
Proof using HA.
  intros [H0 H1].
  destruct (round_not_negative x H0) as [Hinf | (y & Hy & Hy0)].
  - pose proof (Rounded.round_monotone A HA x 1 H1) as Hle.
    by rewrite Hinf, (Rounded.round_1 A HA) in Hle.
  - exists y. split; [done|]. split; [done|].
    pose proof (Rounded.round_monotone A HA x 1 H1) as Hle.
    rewrite Hy, (Rounded.round_1 A HA) in Hle. by apply fle_Fin in Hle.
Qed.

Lemma not_negative_round (x : R) : 0 <= x -> not_negative (Rounded.round A x).
Proof using HA.
  intros Hx. apply not_negative_cases.
  destruct (round_not_negative x Hx) as [-> | ?]; auto.
Qed.

Lemma not_negative_fmul (a b : npfloat) :
  not_negative a -> not_negative b -> not_negative (Rounded.fmul A a b).
Proof using HA.
  intros [-> | [-> | (x & -> & Hx)]]%not_negative_cases
         [-> | [-> | (y & -> & Hy)]]%not_negative_cases; simpl; try done.
  - unfold inf_of, Rsgn. float_cases.
  - unfold inf_of, Rsgn. float_cases.
  - apply not_negative_round. by apply Rmult_le_pos.
Qed.

Lemma not_negative_fadd (a b : npfloat) :
  not_negative a -> not_negative b -> not_negative (Rounded.fadd A a b).
Proof using HA.
  intros [-> | [-> | (x & -> & Hx)]]%not_negative_cases
         [-> | [-> | (y & -> & Hy)]]%not_negative_cases; simpl; try done.
  apply not_negative_round. lra.
Qed.

Lemma not_negative_fexp (a : npfloat) : not_negative (Rounded.fexp A a).
Proof using HA.
  destruct a as [x| | |]; simpl; try done; [|float_cases].
  apply not_negative_fle, (Rounded.exp_not_negative A HA).
Qed.

(** With a probability in [[0,1]] the update of a node keeps a value that
    is not negative: both weights and the discount factor are not
    negative, whatever rounding does to them. *)
Lemma not_negative_node_value (r dt : npfloat) (q : R) (up cur : npfloat) :
  0 <= q <= 1 ->
  not_negative up -> not_negative cur ->
  not_negative (Rounded.node_value A r dt (Fin q) up cur).
Proof using HA.
  intros Hq Hup Hcur. unfold Rounded.node_value.
  apply not_negative_fmul; [apply not_negative_fexp|].
  apply not_negative_fadd; apply not_negative_fmul; try done.
  - apply not_negative_cases. right. right. exists q. split; [done | lra].
  - simpl. apply not_negative_round. lra.
Qed.

End Laws.

(** ** The loops of the backward induction, for any node update *)

Section Loops.
Variables (f : npfloat -> npfloat -> npfloat) (dflt : npfloat).

Let node (i : Z) (a : list npfloat) : result (list npfloat) :=
  up <- getitem a (i + 1) ;; cur <- getitem a i ;; setitem a i (f up cur).

Lemma loop_node_ok (a : list npfloat) (i : nat) :
  (i + 1 < length a)%nat ->
  node (Z.of_nat i) a = Ok (inplace_overwrite f dflt a i).
Proof.
  intros Hi. unfold node, inplace_overwrite.
  replace (Z.of_nat i + 1)%Z with (Z.of_nat (i + 1)) by lia.
  rewrite (getitem_nth a (i + 1) dflt) by done. simpl.
  rewrite (getitem_nth a i dflt) by lia. simpl.
  by rewrite setitem_nat by lia.
Qed.

Lemma loop_level_ok (a : list npfloat) (j : nat) :
  (j + 1 < length a)%nat ->
  for_ (range (Z.of_nat j + 1)) node a = Ok (inplace_level f dflt a j).
Proof.
  intros Hj. unfold inplace_level.
  replace (Z.of_nat j + 1)%Z with (Z.of_nat (j + 1)) by lia.
  rewrite range_nat, for_fmap.
  apply (for_fold (fun s => length s = length a)); [|done].
  intros i s Hi%elem_of_seq0 Hs. split.
  - apply loop_node_ok. lia.
  - by rewrite length_inplace_overwrite.
Qed.

Lemma loop_induction_ok (a : list npfloat) (n : nat) :
  length a = (n + 1)%nat ->
  for_ (range_down (Z.of_nat n - 1)) (fun j => for_ (range (j + 1)) node) a
  = Ok (inplace_induction f dflt n a).
Proof.
  intros Ha. unfold inplace_induction.
  rewrite range_down_nat, for_fmap.
  apply (for_fold (fun s => length s = length a)); [|done].
  intros j s Hj%elem_of_reverse%elem_of_seq0 Hs. split.
  - apply loop_level_ok. lia.
  - by rewrite length_inplace_level.
Qed.
End Loops.

(** ** [run] over an arithmetic is made of the named pieces *)

Ltac unfold_rounded :=
  unfold Rounded.pricing, Rounded.price_pass, Rounded.factors, Rounded.greeks,
    terminal_prices, Rounded.backward_induction, Rounded.induct_level,
    Rounded.induct_node, Rounded.node_value,
    Rounded.call_payoff, Rounded.put_payoff, Rounded.up_factor,
    Rounded.down_factor, Rounded.risk_neutral,
    Rounded.delta_formula, Rounded.gamma_formula, store_prices,
    Rounded.store_greeks, mbind, getattr, lift, setattr, mreturn, bind;
  cbv beta iota zeta.

Section RoundedRun.
Variable A : Rounded.arithmetic.

Lemma rounded_run_decompose (self : BinomialOptionPricing) :
  Rounded.run A self =
  match Rounded.factors A self with
  | Raise e => (self, Raise e)
  | Ok (dt, u, d, q) =>
    match Rounded.pricing A self with
    | Raise e => (self, Raise e)
    | Ok (c, p, a) =>
      match Rounded.greeks A (current_price self) u d a with
      | Raise e => (store_prices c p self, Raise e)
      | Ok (delta, gamma) =>
        (Rounded.store_greeks A delta gamma (store_prices c p self), Ok tt)
      end
    end
  end.
Proof. unfold Rounded.run. unfold_rounded. repeat step_result. Qed.

Lemma length_rounded_pass_array payoff (self : BinomialOptionPricing) (dt u d q : npfloat) :
  length (Rounded.pass_array A payoff self dt u d q) = (Z.to_nat (steps self) + 1)%nat.
Proof.
  unfold Rounded.pass_array. by rewrite length_inplace_induction, length_payoff_vector.
Qed.

Lemma rounded_price_pass_ok payoff (self : BinomialOptionPricing) (dt u d q : npfloat) :
  Rounded.factors A self = Ok (dt, u, d, q) ->
  (0 <= steps self)%Z ->
  Rounded.price_pass A payoff self = Ok (Rounded.pass_array A payoff self dt u d q).
Proof.
  intros Hf Hn. unfold Rounded.price_pass. rewrite Hf.
  cbv beta iota zeta delta [bind].
  rewrite terminal_prices_steps by done.
  unfold Rounded.backward_induction, Rounded.induct_level, Rounded.induct_node.
  rewrite <- (Z2Nat.id (steps self)) at 1 by done.
  rewrite (loop_induction_ok (Rounded.node_value A (interest_rate self) dt q) (Fin 0))
    by apply length_payoff_vector.
  reflexivity.
Qed.

Lemma rounded_pricing_negative (self : BinomialOptionPricing) (dt u d q : npfloat) :
  Rounded.factors A self = Ok (dt, u, d, q) ->
  (steps self < 0)%Z ->
  exists e, Rounded.pricing A self = Raise e.
Proof.
  intros Hf Hn. unfold Rounded.pricing, Rounded.price_pass. rewrite Hf.
  cbv beta iota zeta delta [bind].
  unfold terminal_prices, np_zeros.
  destruct (Z.ltb_spec (steps self + 1) 0) as [Hlt|Hge]; [by eexists|].
  assert (steps self = (-1)%Z) as -> by lia. by eexists.
Qed.

(** A call that returns has at least two steps, and stores the entries
    0 of the two arrays and the Greeks read from the put array. *)
Lemma rounded_run_succeeds (self : BinomialOptionPricing) :
  succeeds (Rounded.run A self) ->
  exists dt u d q,
    Rounded.factors A self = Ok (dt, u, d, q)
    /\ (2 <= steps self)%Z
    /\ Rounded.run A self
       = (Rounded.store_greeks A
            (Rounded.delta_formula A (current_price self) u d
               (nth 1 (Rounded.pass_array A (Rounded.put_payoff A) self dt u d q) (Fin 0))
               (nth 0 (Rounded.pass_array A (Rounded.put_payoff A) self dt u d q) (Fin 0)))
            (Rounded.gamma_formula A (current_price self) u d
               (nth 2 (Rounded.pass_array A (Rounded.put_payoff A) self dt u d q) (Fin 0))
               (nth 1 (Rounded.pass_array A (Rounded.put_payoff A) self dt u d q) (Fin 0))
               (nth 0 (Rounded.pass_array A (Rounded.put_payoff A) self dt u d q) (Fin 0)))
            (store_prices
               (nth 0 (Rounded.pass_array A (Rounded.call_payoff A) self dt u d q) (Fin 0))
               (nth 0 (Rounded.pass_array A (Rounded.put_payoff A) self dt u d q) (Fin 0))
               self),
          Ok tt).
Proof.
  intros [[] Hok]. rewrite rounded_run_decompose in Hok |- *.
  destruct (Rounded.factors A self) as [[[[dt u] d] q]|e] eqn:Hf; [|done].
  exists dt, u, d, q. split; [done|].
  destruct (Z_lt_le_dec (steps self) 0) as [Hneg|Hpos].
  { destruct (rounded_pricing_negative self dt u d q Hf Hneg) as [e He].
    by rewrite He in Hok. }
  unfold Rounded.pricing in Hok |- *.
  rewrite !(rounded_price_pass_ok _ self dt u d q Hf Hpos) in Hok |- *.
  cbv beta iota zeta delta [bind] in Hok |- *.
  change 0%Z with (Z.of_nat 0) in Hok |- *.
  rewrite !(getitem_nth _ 0 (Fin 0)) in Hok |- *
    by (rewrite length_rounded_pass_array; lia).
  cbv beta iota zeta in Hok |- *.
  set (a := Rounded.pass_array A (Rounded.put_payoff A) self dt u d q) in *.
  assert (length a = (Z.to_nat (steps self) + 1)%nat) as Hlen
    by apply length_rounded_pass_array.
  unfold Rounded.greeks in Hok |- *.
  change 0%Z with (Z.of_nat 0) in Hok |- *.
  change 1%Z with (Z.of_nat 1) in Hok |- *.
  destruct (Z_lt_le_dec (steps self) 2) as [Hlt|Hge].
  { exfalso. destruct (decide (steps self = 0%Z)) as [H0|H0].
    - rewrite (getitem_beyond a (Z.of_nat 1)) in Hok by lia. done.
    - rewrite !(getitem_nth a _ (Fin 0)) in Hok by lia. simpl in Hok.
      rewrite (getitem_beyond a 2%Z) in Hok by lia. done. }
  split; [done|].
  change 2%Z with (Z.of_nat 2).
  rewrite !(getitem_nth a _ (Fin 0)) by lia. reflexivity.
Qed.

End RoundedRun.

(** ** The exact arithmetic is an instance *)

Lemma exact_float_laws : Rounded.float_laws Rounded.exact.
Proof.
  split; simpl.
  - intros x y Hxy. by apply fle_Fin.
  - reflexivity.
  - reflexivity.
  - intros x. apply fle_Fin. apply Rlt_le, exp_pos.
  - intros x Hx. apply fle_Fin.
    destruct (Req_dec_T x 0) as [->|Hne]; [rewrite exp_0; lra|].
    pose proof (exp_ineq1 x). lra.
  - intros n x Hn [= <-]. by apply IZR_le.
Qed.

Lemma exact_fadd (a b : npfloat) : Rounded.fadd Rounded.exact a b = fadd a b.
Proof. by destruct a, b. Qed.

Lemma exact_fsub (a b : npfloat) : Rounded.fsub Rounded.exact a b = fsub a b.
Proof. by destruct a, b. Qed.

Lemma exact_fmul (a b : npfloat) : Rounded.fmul Rounded.exact a b = fmul a b.
Proof. by destruct a, b. Qed.

Lemma exact_fdiv (a b : npfloat) : Rounded.fdiv Rounded.exact a b = fdiv a b.
Proof. by destruct a, b. Qed.

Lemma exact_fexp (a : npfloat) : Rounded.fexp Rounded.exact a = fexp a.
Proof. by destruct a. Qed.

Lemma exact_fsqrt (a : npfloat) : Rounded.fsqrt Rounded.exact a = fsqrt a.
Proof. by destruct a. Qed.

Lemma exact_fpow (a : npfloat) (n : Z) : Rounded.fpow Rounded.exact a n = fpow a n.
Proof. by destruct a. Qed.

Create Rewrite HintDb exact_ops.
#[local] Hint Rewrite exact_fadd exact_fsub exact_fmul exact_fdiv exact_fexp
  exact_fsqrt exact_fpow : exact_ops.

Lemma exact_factors (self : BinomialOptionPricing) :
  Rounded.factors Rounded.exact self = factors self.
Proof.
  unfold Rounded.factors, factors, Rounded.py_truediv, py_truediv.
  destruct (steps self =? 0)%Z; [reflexivity|]. simpl.
  unfold Rounded.risk_neutral, Rounded.down_factor, Rounded.up_factor,
    risk_neutral, down_factor, up_factor.
  by autorewrite with exact_ops.
Qed.

Lemma for_ext {A S : Type} (l : list A) (body body' : A -> S -> result S) (s : S) :
  (forall x s, body x s = body' x s) -> for_ l body s = for_ l body' s.
Proof.
  intros Hb. revert s. induction l as [|x l IH]; intros s; simpl; [reflexivity|].
  rewrite Hb. destruct (body' x s); simpl; [apply IH | reflexivity].
Qed.

Lemma exact_node_value (r dt q up cur : npfloat) :
  Rounded.node_value Rounded.exact r dt q up cur = node_value r dt q up cur.
Proof.
  unfold Rounded.node_value, node_value.
  by autorewrite with exact_ops.
Qed.

Lemma exact_payoff (K S0 u d : npfloat) (n i : Z) :
  Rounded.call_payoff Rounded.exact K S0 u d n i = call_payoff K S0 u d n i
  /\ Rounded.put_payoff Rounded.exact K S0 u d n i = put_payoff K S0 u d n i.
Proof.
  unfold Rounded.call_payoff, Rounded.put_payoff, call_payoff, put_payoff.
  by autorewrite with exact_ops.
Qed.

Lemma exact_backward_induction (r dt q : npfloat) (n : Z) (a : list npfloat) :
  Rounded.backward_induction Rounded.exact r dt q n a = backward_induction r dt q n a.
Proof.
  unfold Rounded.backward_induction, backward_induction.
  apply for_ext. intros j s. apply for_ext. intros i s'.
  unfold Rounded.induct_node, induct_node.
  destruct (getitem s' (i + 1)) as [up|]; [|reflexivity]. simpl.
  destruct (getitem s' i) as [cur|]; [|reflexivity]. simpl.
  f_equal. apply exact_node_value.
Qed.

Lemma exact_pricing (self : BinomialOptionPricing) :
  Rounded.pricing Rounded.exact self = pricing self.
Proof.
  unfold Rounded.pricing, pricing, call_pass, put_pass, Rounded.price_pass, price_pass.
  rewrite exact_factors.
  destruct (factors self) as [[[[dt u] d] q]|e]; [|reflexivity].
  cbv beta iota zeta delta [bind].
  assert (forall payoff payoff' : Z -> npfloat,
            (forall i, payoff i = payoff' i) ->
            terminal_prices payoff (steps self) = terminal_prices payoff' (steps self))
    as Hterm.
  { intros payoff payoff' Hp. unfold terminal_prices.
    destruct (np_zeros (steps self + 1)); [|reflexivity]. simpl.
    apply for_ext. intros i s. by rewrite Hp. }
  rewrite (Hterm (Rounded.call_payoff Rounded.exact (strike self) (current_price self)
                    u d (steps self))
                 (call_payoff (strike self) (current_price self) u d (steps self)))
    by (intros i; apply exact_payoff).
  rewrite (Hterm (Rounded.put_payoff Rounded.exact (strike self) (current_price self)
                    u d (steps self))
                 (put_payoff (strike self) (current_price self) u d (steps self)))
    by (intros i; apply exact_payoff).
  destruct (terminal_prices (call_payoff _ _ _ _ _) _) as [a|]; [|reflexivity].
  rewrite exact_backward_induction.
  destruct (backward_induction _ _ _ _ a) as [a'|]; [|reflexivity].
  destruct (getitem a' 0) as [c|]; [|reflexivity].
  destruct (terminal_prices (put_payoff _ _ _ _ _) _) as [b|]; [|reflexivity].
  by rewrite exact_backward_induction.
Qed.

Lemma exact_greeks (S0 u d : npfloat) (a : list npfloat) :
  Rounded.greeks Rounded.exact S0 u d a = greeks S0 u d a.
Proof.
  unfold Rounded.greeks, greeks.
  destruct (getitem a 1) as [p1|]; [|reflexivity]. simpl.
  destruct (getitem a 0) as [p0|]; [|reflexivity]. simpl.
  destruct (getitem a 2) as [g2|]; [|reflexivity]. simpl.
  unfold Rounded.delta_formula, Rounded.gamma_formula, delta_formula, gamma_formula.
  by autorewrite with exact_ops.
Qed.

(** With the exact arithmetic the second embedding of [run] is the
    first. *)
Lemma exact_run (self : BinomialOptionPricing) :
  Rounded.run Rounded.exact self = run self.
Proof.
  rewrite rounded_run_decompose, run_decompose, exact_factors, exact_pricing.
  destruct (factors self) as [[[[dt u] d] q]|e]; [|reflexivity].
  destruct (pricing self) as [[[c p] a]|e]; [|reflexivity].
  rewrite exact_greeks.
  destruct (greeks (current_price self) u d a) as [[delta gamma]|e]; [|reflexivity].
  unfold Rounded.store_greeks, store_greeks. by autorewrite with exact_ops.
Qed.

(** ** IEEE 754 binary64 satisfies the laws *)

Lemma pow2_pos (k : Z) : 0 < powerRZ 2 k.
Proof. apply powerRZ_lt. lra. Qed.

Lemma pow2_add (a b : Z) : powerRZ 2 (a + b) = powerRZ 2 a * powerRZ 2 b.
Proof. apply powerRZ_add. lra. Qed.

Lemma pow2_ge_1 (k : Z) : (0 <= k)%Z -> 1 <= powerRZ 2 k.
Proof.
  intros Hk. destruct k as [|p|p]; [simpl; lra | | lia].
  simpl. apply pow_R1_Rle. lra.
Qed.

Lemma pow2_le (a b : Z) : (a <= b)%Z -> powerRZ 2 a <= powerRZ 2 b.
Proof.
  intros Hab. replace b with (a + (b - a))%Z by lia. rewrite pow2_add.
  pose proof (pow2_pos a). pose proof (pow2_ge_1 (b - a) ltac:(lia)). nra.
Qed.

Lemma pow2_lt (a b : Z) : (a < b)%Z -> powerRZ 2 a < powerRZ 2 b.
Proof.
  intros Hab. replace b with (a + (1 + (b - a - 1)))%Z by lia.
  rewrite !pow2_add. change (powerRZ 2 1) with (2 * 1).
  pose proof (pow2_pos a). pose proof (pow2_ge_1 (b - a - 1) ltac:(lia)). nra.
Qed.

Lemma pow2_IZR (n : nat) : powerRZ 2 (Z.of_nat n) = IZR (2 ^ Z.of_nat n).
Proof. by rewrite <- pow_powerRZ, pow_IZR. Qed.

Lemma ln2_pos : 0 < ln 2.
Proof. rewrite <- ln_1. apply ln_increasing; lra. Qed.

Lemma pow2_exp (k : Z) : powerRZ 2 k = exp (IZR k * ln 2).
Proof. rewrite powerRZ_Rpower by lra. reflexivity. Qed.

Lemma ln_pow2 (k : Z) : ln (powerRZ 2 k) / ln 2 = IZR k.
Proof.
  rewrite pow2_exp, ln_exp. pose proof ln2_pos. field. lra.
Qed.

(** The binade of a number. *)

Lemma exponent_opp (x : R) : Rounded.exponent (- x) = Rounded.exponent x.
Proof. unfold Rounded.exponent. by rewrite Rabs_Ropp. Qed.

Lemma exponent_above (x : R) :
  x <> 0 -> Rabs x < powerRZ 2 (Rounded.exponent x + 1).
Proof.
  intros Hx. pose proof (Rabs_pos_lt x Hx) as Hpos. pose proof ln2_pos as Hln.
  unfold Rounded.exponent. set (f := Zfloor (ln (Rabs x) / ln 2)).
  apply Rlt_le_trans with (powerRZ 2 (f + 1)); [|apply pow2_le; lia].
  rewrite pow2_exp, <- (exp_ln (Rabs x)) at 1 by done.
  apply exp_increasing. rewrite plus_IZR.
  destruct (Zfloor_bound (ln (Rabs x) / ln 2)) as [_ Hf]. fold f in Hf.
  apply Rmult_lt_compat_r with (r := ln 2) in Hf; [|done].
  unfold Rdiv in Hf. rewrite Rmult_assoc, Rinv_l, Rmult_1_r in Hf by lra. lra.
Qed.

Lemma exponent_below (x : R) :
  x <> 0 -> (-1022 < Rounded.exponent x)%Z ->
  powerRZ 2 (Rounded.exponent x) <= Rabs x.
Proof.
  intros Hx. pose proof (Rabs_pos_lt x Hx) as Hpos. pose proof ln2_pos as Hln.
  unfold Rounded.exponent. set (f := Zfloor (ln (Rabs x) / ln 2)). intros Hf.
  replace (Z.max (-1022) f) with f by lia.
  rewrite pow2_exp. rewrite <- (exp_ln (Rabs x)) at 1 by done.
  destruct (Zfloor_bound (ln (Rabs x) / ln 2)) as [Hlow _]. fold f in Hlow.
  apply Rmult_le_compat_r with (r := ln 2) in Hlow; [|lra].
  unfold Rdiv in Hlow. rewrite Rmult_assoc, Rinv_l, Rmult_1_r in Hlow by lra.
  destruct Hlow as [Hlt | ->]; [apply Rlt_le, exp_increasing; done | lra].
Qed.

Lemma exponent_monotone (x y : R) :
  0 < x -> x <= y -> (Rounded.exponent x <= Rounded.exponent y)%Z.
Proof.
  intros Hx Hxy. pose proof ln2_pos as Hln. unfold Rounded.exponent.
  rewrite !Rabs_pos_eq by lra.
  apply Z.max_le_compat_l, Zfloor_le.
  apply Rmult_le_compat_r; [apply Rlt_le, Rinv_0_lt_compat; done|].
  destruct Hxy as [Hlt | ->]; [apply Rlt_le, ln_increasing; done | lra].
Qed.

Lemma exponent_pow2 (k : Z) :
  (-1022 <= k)%Z -> Rounded.exponent (powerRZ 2 k) = k.
Proof.
  intros Hk. unfold Rounded.exponent.
  rewrite Rabs_pos_eq by apply Rlt_le, pow2_pos.
  rewrite ln_pow2, ZfloorZ. lia.
Qed.

(** Rounding to the nearest integer. *)

Lemma nearest_even_bounds (x : R) :
  (Zfloor x <= Rounded.nearest_even x <= Zfloor x + 1)%Z.
Proof.
  unfold Rounded.nearest_even.
  destruct (Rlt_dec _ _); [lia|]. destruct (Rlt_dec _ _); [lia|].
  destruct (Z.even _); lia.
Qed.

Lemma nearest_even_IZR (k : Z) : Rounded.nearest_even (IZR k) = k.
Proof.
  unfold Rounded.nearest_even. rewrite ZfloorZ.
  destruct (Rlt_dec (IZR k - IZR k) (1 / 2)); [done | lra].
Qed.

Lemma nearest_even_monotone (x y : R) :
  x <= y -> (Rounded.nearest_even x <= Rounded.nearest_even y)%Z.
Proof.
  intros Hxy. pose proof (Zfloor_le x y Hxy) as Hfl.
  destruct (Z_lt_le_dec (Zfloor x) (Zfloor y)) as [Hlt|Hge].
  { pose proof (nearest_even_bounds x). pose proof (nearest_even_bounds y). lia. }
  assert (Zfloor y = Zfloor x) as Heq by lia.
  unfold Rounded.nearest_even. rewrite Heq.
  repeat match goal with
  | |- context [Rlt_dec ?a ?b] => destruct (Rlt_dec a b)
  end; try lia; try lra; destruct (Z.even (Zfloor x)); lia.
Qed.

Lemma nearest_even_opp (x : R) :
  Rounded.nearest_even (- x) = (- Rounded.nearest_even x)%Z.
Proof.
  destruct (Zfloor_bound x) as [Hlow Hup].
  destruct Hlow as [Hlt | Heq].
  - assert (Zfloor (- x) = (- Zfloor x - 1)%Z) as Hf.
    { apply Zfloor_eq. rewrite minus_IZR, opp_IZR. lra. }
    unfold Rounded.nearest_even. rewrite Hf, minus_IZR, opp_IZR.
    assert (Z.even (- Zfloor x - 1) = negb (Z.even (Zfloor x))) as ->.
    { rewrite Z.even_sub, Z.even_opp. by destruct (Z.even (Zfloor x)). }
    repeat match goal with
    | |- context [Rlt_dec ?a ?b] => destruct (Rlt_dec a b)
    end; try lia; try lra; destruct (Z.even (Zfloor x)); simpl; lia.
  - rewrite <- Heq, <- opp_IZR, !nearest_even_IZR. done.
Qed.

(** Rounding to the nearest float. *)

Lemma ulp_pos (x : R) : 0 < Rounded.ulp x.
Proof. apply pow2_pos. Qed.

Lemma nearest_float_opp (x : R) :
  Rounded.nearest_float (- x) = - Rounded.nearest_float x.
Proof.
  unfold Rounded.nearest_float, Rounded.ulp. rewrite exponent_opp.
  replace (- x / powerRZ 2 (Rounded.exponent x - 52))
    with (- (x / powerRZ 2 (Rounded.exponent x - 52))) by (unfold Rdiv; ring).
  rewrite nearest_even_opp, opp_IZR. ring.
Qed.

Lemma nearest_float_0 : Rounded.nearest_float 0 = 0.
Proof.
  unfold Rounded.nearest_float. replace (0 / Rounded.ulp 0) with (IZR 0)
    by (unfold Rdiv; ring).
  rewrite nearest_even_IZR. ring.
Qed.

Lemma nearest_float_not_negative (x : R) : 0 <= x -> 0 <= Rounded.nearest_float x.
Proof.
  intros Hx. unfold Rounded.nearest_float. pose proof (ulp_pos x) as Hu.
  apply Rmult_le_pos; [|lra]. apply IZR_le.
  rewrite <- (nearest_even_IZR 0). apply nearest_even_monotone.
  apply Rmult_le_pos; [done|]. apply Rlt_le, Rinv_0_lt_compat. done.
Qed.

(** A quotient by a power of two, compared with an integer. *)
Lemma div_pow2_le (x : R) (e : Z) (k : Z) :
  x <= IZR k * powerRZ 2 e -> x / powerRZ 2 e <= IZR k.
Proof.
  intros Hx. pose proof (pow2_pos e) as He.
  apply Rmult_le_reg_r with (powerRZ 2 e); [done|].
  unfold Rdiv. rewrite Rmult_assoc, Rinv_l, Rmult_1_r by lra. done.
Qed.

Lemma div_pow2_ge (x : R) (e : Z) (k : Z) :
  IZR k * powerRZ 2 e <= x -> IZR k <= x / powerRZ 2 e.
Proof.
  intros Hx. pose proof (pow2_pos e) as He.
  apply Rmult_le_reg_r with (powerRZ 2 e); [done|].
  unfold Rdiv. rewrite Rmult_assoc, Rinv_l, Rmult_1_r by lra. done.
Qed.

Lemma pow2_split (e : Z) : IZR (2 ^ 52) * powerRZ 2 (e - 52) = powerRZ 2 e.
Proof.
  change 52%Z with (Z.of_nat 52) at 1. rewrite <- pow2_IZR, <- pow2_add.
  f_equal. lia.
Qed.

Lemma pow2_split_next (e : Z) : IZR (2 ^ 53) * powerRZ 2 (e - 52) = powerRZ 2 (e + 1).
Proof.
  change 53%Z with (Z.of_nat 53). rewrite <- pow2_IZR, <- pow2_add.
  f_equal. lia.
Qed.

(** A positive number rounds to a float of its binade, the next power of
    two included. *)
Lemma nearest_float_binade_above (x : R) :
  0 < x -> Rounded.nearest_float x <= powerRZ 2 (Rounded.exponent x + 1).
Proof.
  intros Hx. unfold Rounded.nearest_float, Rounded.ulp.
  rewrite <- pow2_split_next.
  apply Rmult_le_compat_r; [apply Rlt_le, pow2_pos|]. apply IZR_le.
  rewrite <- (nearest_even_IZR (2 ^ 53)). apply nearest_even_monotone.
  apply div_pow2_le. rewrite pow2_split_next.
  pose proof (exponent_above x ltac:(lra)) as Hb.
  rewrite Rabs_pos_eq in Hb by lra. lra.
Qed.

Lemma nearest_float_binade_below (x : R) :
  0 < x -> (-1022 < Rounded.exponent x)%Z ->
  powerRZ 2 (Rounded.exponent x) <= Rounded.nearest_float x.
Proof.
  intros Hx He. unfold Rounded.nearest_float, Rounded.ulp.
  rewrite <- pow2_split at 1.
  apply Rmult_le_compat_r; [apply Rlt_le, pow2_pos|]. apply IZR_le.
  rewrite <- (nearest_even_IZR (2 ^ 52)) at 1. apply nearest_even_monotone.
  apply div_pow2_ge. rewrite pow2_split.
  pose proof (exponent_below x ltac:(lra) He) as Hb.
  rewrite Rabs_pos_eq in Hb by lra. lra.
Qed.

Lemma nearest_float_monotone_pos (x y : R) :
  0 < x -> x <= y -> Rounded.nearest_float x <= Rounded.nearest_float y.
Proof.
  intros Hx Hxy. pose proof (exponent_monotone x y Hx Hxy) as He.
  destruct (Z_lt_le_dec (Rounded.exponent x) (Rounded.exponent y)) as [Hlt|Hge].
  - apply Rle_trans with (powerRZ 2 (Rounded.exponent x + 1));
      [by apply nearest_float_binade_above|].
    apply Rle_trans with (powerRZ 2 (Rounded.exponent y)); [apply pow2_le; lia|].
    apply nearest_float_binade_below; [lra|].
    assert (-1022 <= Rounded.exponent x)%Z by (unfold Rounded.exponent; lia). lia.
  - assert (Rounded.exponent y = Rounded.exponent x) as Heq by lia.
    unfold Rounded.nearest_float, Rounded.ulp. rewrite Heq.
    apply Rmult_le_compat_r; [apply Rlt_le, pow2_pos|]. apply IZR_le.
    apply nearest_even_monotone.
    apply Rmult_le_compat_r; [|done]. apply Rlt_le, Rinv_0_lt_compat, pow2_pos.
Qed.

Lemma nearest_float_monotone (x y : R) :
  x <= y -> Rounded.nearest_float x <= Rounded.nearest_float y.
Proof.
  intros Hxy. destruct (Rlt_dec 0 x) as [Hx|Hx].
  { by apply nearest_float_monotone_pos. }
  destruct (Rle_dec 0 y) as [Hy|Hy].
  - apply Rle_trans with 0; [|by apply nearest_float_not_negative].
    pose proof (nearest_float_not_negative (- x) ltac:(lra)) as Hn.
    rewrite nearest_float_opp in Hn. lra.
  - pose proof (nearest_float_monotone_pos (- y) (- x) ltac:(lra) ltac:(lra)) as Hn.
    rewrite !nearest_float_opp in Hn. lra.
Qed.

Lemma overflow_monotone (x y : R) :
  x <= y -> fle (Rounded.overflow x) (Rounded.overflow y) = true.
Proof.
  intros Hxy. unfold Rounded.overflow. pose proof (pow2_pos 1024) as Hm.
  set (M := powerRZ 2 1024) in *.
  destruct (Rle_dec M x), (Rle_dec M y); try done; try lra;
    destruct (Rle_dec x (- M)), (Rle_dec y (- M)); try done; try lra.
  by apply fle_Fin.
Qed.

Lemma round64_monotone (x y : R) :
  x <= y -> fle (Rounded.round64 x) (Rounded.round64 y) = true.
Proof.
  intros Hxy. by apply overflow_monotone, nearest_float_monotone.
Qed.

Lemma overflow_within (y : R) :
  - powerRZ 2 1024 < y < powerRZ 2 1024 -> Rounded.overflow y = Fin y.
Proof.
  intros Hy. unfold Rounded.overflow.
  destruct (Rle_dec _ _); [lra|]. destruct (Rle_dec _ _); [lra | done].
Qed.

Lemma round64_0 : Rounded.round64 0 = Fin 0.
Proof.
  unfold Rounded.round64. rewrite nearest_float_0. apply overflow_within.
  pose proof (pow2_pos 1024). lra.
Qed.

(** A power of two in the normal range is a float. *)
Lemma round64_pow2 (k : Z) :
  (-1022 <= k < 1024)%Z -> Rounded.round64 (powerRZ 2 k) = Fin (powerRZ 2 k).
Proof.
  intros Hk. unfold Rounded.round64.
  assert (Rounded.nearest_float (powerRZ 2 k) = powerRZ 2 k) as ->.
  { unfold Rounded.nearest_float, Rounded.ulp. rewrite exponent_pow2 by lia.
    replace (powerRZ 2 k / powerRZ 2 (k - 52)) with (IZR (2 ^ 52)).
    - rewrite nearest_even_IZR. apply pow2_split.
    - rewrite <- (pow2_split k). pose proof (pow2_pos (k - 52)). field. lra. }
  apply overflow_within. pose proof (pow2_pos k). pose proof (pow2_pos 1024).
  pose proof (pow2_lt k 1024 ltac:(lia)). lra.
Qed.

Lemma round64_1 : Rounded.round64 1 = Fin 1.
Proof. apply (round64_pow2 0). lia. Qed.

Lemma round64_2 : Rounded.round64 2 = Fin 2.
Proof.
  replace 2 with (powerRZ 2 1) by (simpl; lra). apply round64_pow2. lia.
Qed.

Lemma binary64_float_laws : Rounded.float_laws Rounded.binary64.
Proof.
  split; simpl.
  - apply round64_monotone.
  - apply round64_0.
  - apply round64_1.
  - intros x. rewrite <- round64_0. apply round64_monotone, Rlt_le, exp_pos.
  - intros x Hx. rewrite <- round64_1. apply round64_monotone.
    pose proof (exp_ineq1_le x). lra.
  - intros n x Hn. unfold Rounded.float_of_int64.
    pose proof (round64_monotone 1 (IZR n) (IZR_le 1 n Hn)) as Hle.
    rewrite round64_1 in Hle.
    destruct (Rounded.round64 (IZR n)) as [y| | |]; try done.
    intros [= <-]. by apply fle_Fin.
Qed.

(** ** Evaluating the rounding *)

(** Every number from 1 to less than [1 + 2^-53] rounds to 1. *)
Lemma round64_just_above_1 (y : R) :
  1 <= y < 1 + powerRZ 2 (-53) -> Rounded.round64 y = Fin 1.
Proof.
  intros [Hlow Hup]. pose proof ln2_pos as Hln.
  assert (powerRZ 2 (-53) < 1) as H53.
  { change 1 with (powerRZ 2 0). apply pow2_lt. lia. }
  assert (Rounded.exponent y = 0%Z) as He.
  { unfold Rounded.exponent. rewrite Rabs_pos_eq by lra.
    rewrite (Zfloor_eq 0); [lia|]. split.
    - apply Rmult_le_pos; [|apply Rlt_le, Rinv_0_lt_compat; done].
      rewrite <- ln_1. destruct Hlow as [Hlt | <-]; [|lra].
      apply Rlt_le, ln_increasing; lra.
    - apply Rmult_lt_reg_r with (ln 2); [done|].
      unfold Rdiv. rewrite Rmult_assoc, Rinv_l, Rmult_1_r by lra.
      assert (ln y < ln 2) by (apply ln_increasing; lra). simpl. lra. }
  unfold Rounded.round64.
  assert (Rounded.nearest_float y = 1) as ->.
  { unfold Rounded.nearest_float, Rounded.ulp. rewrite He.
    pose proof (pow2_pos (0 - 52)) as Hu. pose proof (pow2_split 0) as Hsplit.
    change (powerRZ 2 0) with 1 in Hsplit.
    assert (powerRZ 2 (-53) = powerRZ 2 (0 - 52) * / 2) as H53'.
    { replace (-53)%Z with ((0 - 52) + (-1))%Z by lia. rewrite pow2_add.
      f_equal. simpl. lra. }
    set (v := powerRZ 2 (0 - 52)) in *. set (K := IZR (2 ^ 52)) in *.
    assert (y / v = y * K) as Hq.
    { apply Rmult_eq_reg_r with v; [|lra].
      unfold Rdiv. rewrite Rmult_assoc, Rinv_l by lra. rewrite Rmult_assoc, Hsplit.
      ring. }
    assert (0 < K) as HK by nra.
    assert (K <= y * K < K + 1 / 2) as Hrange.
    { split; [nra|]. rewrite H53' in Hup.
      assert (y * K < (1 + v * / 2) * K) by (apply Rmult_lt_compat_r; lra).
      replace ((1 + v * / 2) * K) with (K + (K * v) / 2) in H by (unfold Rdiv; ring).
      rewrite Hsplit in H. lra. }
    replace (Rounded.nearest_even (y / v)) with (2 ^ 52)%Z; [exact Hsplit|].
    rewrite Hq. unfold Rounded.nearest_even.
    rewrite (Zfloor_eq (2 ^ 52)) by (fold K; lra). fold K.
    destruct (Rlt_dec (y * K - K) (1 / 2)); [done | lra]. }
  apply overflow_within. pose proof (pow2_lt 0 1024 ltac:(lia)) as Hm.
  change (powerRZ 2 0) with 1 in Hm. lra.
Qed.

(** The exponential of a small positive number stays below [1 + 2 x]. *)
Lemma exp_small (x : R) : 0 < x <= 1 / 2 -> 1 < exp x < 1 + 2 * x.
Proof.
  intros [Hx0 Hx1]. split; [pose proof (exp_ineq1 x); lra|].
  pose proof (exp_ineq1 (- x) ltac:(lra)) as Hneg.
  rewrite exp_Ropp in Hneg. pose proof (exp_pos x) as Hpos.
  assert ((1 - x) * exp x < 1) as Hprod.
  { apply Rmult_lt_compat_r with (r := exp x) in Hneg; [|done].
    rewrite Rinv_l in Hneg by lra. lra. }
  nra.
Qed.

(** A number of a known binade rounds to the multiple of its spacing that
    [nearest_even] picks. *)
Lemma exponent_in_binade (x : R) (e : Z) :
  (-1022 <= e)%Z -> powerRZ 2 e <= x < powerRZ 2 (e + 1) ->
  Rounded.exponent x = e.
Proof.
  intros He [Hlow Hup]. pose proof ln2_pos as Hln. pose proof (pow2_pos e) as Hpos.
  unfold Rounded.exponent. rewrite Rabs_pos_eq by lra.
  rewrite (Zfloor_eq e); [lia|]. split.
  - rewrite <- (ln_pow2 e). apply Rmult_le_compat_r;
      [apply Rlt_le, Rinv_0_lt_compat; done|].
    destruct Hlow as [Hlt | <-]; [apply Rlt_le, ln_increasing; done | lra].
  - rewrite <- plus_IZR, <- (ln_pow2 (e + 1)). apply Rmult_lt_compat_r;
      [apply Rinv_0_lt_compat; done|].
    apply ln_increasing; lra.
Qed.

Lemma round64_in_binade (x : R) (e k : Z) :
  (-1022 <= e < 1024)%Z -> powerRZ 2 e <= x < powerRZ 2 (e + 1) ->
  Rounded.nearest_even (x / powerRZ 2 (e - 52)) = k ->
  (0 <= k < 2 ^ 53)%Z ->
  Rounded.round64 x = Fin (IZR k * powerRZ 2 (e - 52)).
Proof.
  intros He Hx Hk Hrange. unfold Rounded.round64, Rounded.nearest_float, Rounded.ulp.
  rewrite (exponent_in_binade x e) by (done || lia). rewrite Hk.
  apply overflow_within.
  pose proof (pow2_pos (e - 52)) as Hu. pose proof (pow2_pos 1024) as Hm.
  pose proof (pow2_split_next e) as Hnext.
  pose proof (pow2_le (e + 1) 1024 ltac:(lia)) as Hle.
  assert (0 <= IZR k) as Hk0 by (apply IZR_le; lia).
  assert (IZR k < IZR (2 ^ 53)) as Hk1 by (apply IZR_lt; lia).
  split; [nra|]. apply Rlt_le_trans with (powerRZ 2 (e + 1)); [|done].
  rewrite <- Hnext. by apply Rmult_lt_compat_r.
Qed.

(** ** The up and down factors *)

Lemma rounded_factors_ok (A : Rounded.arithmetic) (self : BinomialOptionPricing)
    (n : R) :
  steps self <> 0%Z ->
  Rounded.float_of_int A (steps self) = Ok n ->
  Rounded.factors A self
  = Ok (Rounded.fdiv A (time_to_maturity self) (Fin n),
        Rounded.up_factor A (volatility self)
          (Rounded.fdiv A (time_to_maturity self) (Fin n)),
        Rounded.down_factor A
          (Rounded.up_factor A (volatility self)
             (Rounded.fdiv A (time_to_maturity self) (Fin n))),
        Rounded.risk_neutral A (interest_rate self)
          (Rounded.fdiv A (time_to_maturity self) (Fin n))
          (Rounded.up_factor A (volatility self)
             (Rounded.fdiv A (time_to_maturity self) (Fin n)))
          (Rounded.down_factor A
             (Rounded.up_factor A (volatility self)
                (Rounded.fdiv A (time_to_maturity self) (Fin n))))).
Proof.
  intros H0 Hconv. unfold Rounded.factors, Rounded.py_truediv.
  destruct (Z.eqb_spec (steps self) 0) as [|_]; [done|].
  by rewrite Hconv.
Qed.

(** C9, as the code behaves: with a finite [time_to_maturity > 0], a
    finite [volatility > 0] and [steps >= 1], the factors computed are
    [u = exp(volatility * sqrt(time_to_maturity / steps))] and [d = 1 / u],
    each operation rounded, and [0 <= d <= 1 <= u].  The inequalities are
    not strict: [u] and [d] can both round to [1], and [u] can overflow to
    [+inf], which makes [d] zero. *)
Theorem factors_bracket_one (A : Rounded.arithmetic) (self : BinomialOptionPricing)
    (T sigma : R) (dt u d q : npfloat) :
  Rounded.float_laws A ->
  time_to_maturity self = Fin T ->
  volatility self = Fin sigma ->
  0 < T ->
  0 < sigma ->
  (1 <= steps self)%Z ->
  Rounded.factors A self = Ok (dt, u, d, q) ->
  (exists n, Rounded.float_of_int A (steps self) = Ok n
             /\ dt = Rounded.fdiv A (Fin T) (Fin n))
  /\ u = Rounded.fexp A (Rounded.fmul A (Fin sigma) (Rounded.fsqrt A dt))
  /\ d = Rounded.fdiv A (Fin 1) u
  /\ fle (Fin 0) d = true /\ fle d (Fin 1) = true /\ fle (Fin 1) u = true.
Proof.
  intros HA HT Hs HT0 Hs0 Hn Hf.
  destruct (Rounded.float_of_int A (steps self)) as [n|e] eqn:Hconv.
  2: { unfold Rounded.factors, Rounded.py_truediv in Hf.
       destruct (Z.eqb_spec (steps self) 0) as [H0|_]; [lia|].
       by rewrite Hconv in Hf. }
  rewrite (rounded_factors_ok A self n) in Hf by (done || lia).
  rewrite HT, Hs in Hf.
  unfold Rounded.up_factor, Rounded.down_factor in Hf.
  set (dt0 := Rounded.fdiv A (Fin T) (Fin n)) in Hf.
  set (u0 := Rounded.fexp A (Rounded.fmul A (Fin sigma) (Rounded.fsqrt A dt0))) in Hf.
  set (d0 := Rounded.fdiv A (Fin 1) u0) in Hf.
  assert (dt = dt0 /\ u = u0 /\ d = d0) as (-> & -> & ->) by (by injection Hf).
  subst d0 u0 dt0. clear Hf.
  pose proof (Rounded.float_of_int_positive A HA _ _ Hn Hconv) as Hn1.
  split; [by exists n|]. split; [reflexivity|]. split; [reflexivity|].
  (* dt is not negative *)
  assert (0 <= T / n) as Hdt.
  { apply Rlt_le, Rdiv_lt_0_compat; lra. }
  assert (Rounded.fdiv A (Fin T) (Fin n) = Rounded.round A (T / n)) as ->.
  { simpl. destruct (Req_dec_T n 0); [lra | done]. }
  (* u is at least one *)
  assert (fle (Fin 1)
            (Rounded.fexp A (Rounded.fmul A (Fin sigma)
               (Rounded.fsqrt A (Rounded.round A (T / n))))) = true) as Hu.
  { destruct (round_not_negative A HA _ Hdt) as [-> | (t & -> & Ht)]; simpl.
    - unfold Rsgn. destruct (Rlt_dec 0 sigma); [done | lra].
    - destruct (Rlt_dec t 0); [lra|].
      destruct (round_not_negative A HA (sqrt t) (sqrt_pos t))
        as [-> | (s & -> & Hs')]; simpl.
      + unfold Rsgn. destruct (Rlt_dec 0 sigma); [done | lra].
      + assert (0 <= sigma * s) as Hm by (apply Rmult_le_pos; lra).
        destruct (round_not_negative A HA _ Hm) as [-> | (m & -> & Hm')]; simpl;
          [done|].
        by apply (Rounded.exp_above_one A HA). }
  split; [|split; [|done]].
  - apply fle_Fin_l in Hu as [-> | (y & -> & Hy)]; simpl; [by apply fle_Fin; lra|].
    destruct (Req_dec_T y 0); [lra|].
    destruct (round_unit A HA (1 / y)) as (z & -> & Hz).
    { split; [apply Rlt_le, Rdiv_lt_0_compat; lra|].
      apply Rmult_le_reg_r with y; [lra|]. unfold Rdiv.
      rewrite Rmult_assoc, Rinv_l by lra. lra. }
    apply fle_Fin. lra.
  - apply fle_Fin_l in Hu as [-> | (y & -> & Hy)]; simpl; [by apply fle_Fin; lra|].
    destruct (Req_dec_T y 0); [lra|].
    destruct (round_unit A HA (1 / y)) as (z & -> & Hz).
    { split; [apply Rlt_le, Rdiv_lt_0_compat; lra|].
      apply Rmult_le_reg_r with y; [lra|]. unfold Rdiv.
      rewrite Rmult_assoc, Rinv_l by lra. lra. }
    apply fle_Fin. lra.
Qed.

Lemma factors_bracket_one_witness :
  exists dt u d q,
    Rounded.factors Rounded.exact reference_model = Ok (dt, u, d, q)
    /\ (exists n, Rounded.float_of_int Rounded.exact (steps reference_model) = Ok n
                  /\ dt = Rounded.fdiv Rounded.exact (Fin 2) (Fin n))
    /\ u = Rounded.fexp Rounded.exact
             (Rounded.fmul Rounded.exact (Fin 0.2) (Rounded.fsqrt Rounded.exact dt))
    /\ d = Rounded.fdiv Rounded.exact (Fin 1) u
    /\ fle (Fin 0) d = true /\ fle d (Fin 1) = true /\ fle (Fin 1) u = true.
Proof.
  eexists _, _, _, _. split; [reflexivity|].
  apply (factors_bracket_one Rounded.exact reference_model 2 0.2 _ _ _
           (Rounded.risk_neutral Rounded.exact (interest_rate reference_model)
              (Rounded.fdiv Rounded.exact (Fin 2) (Fin (IZR 100)))
              (Rounded.up_factor Rounded.exact (Fin 0.2)
                 (Rounded.fdiv Rounded.exact (Fin 2) (Fin (IZR 100))))
              (Rounded.down_factor Rounded.exact
                 (Rounded.up_factor Rounded.exact (Fin 0.2)
                    (Rounded.fdiv Rounded.exact (Fin 2) (Fin (IZR 100))))))).
  - apply exact_float_laws.
  - reflexivity.
  - reflexivity.
  - lra.
  - lra.
  - simpl. lia.
  - reflexivity.
Defined.

(** The factors of [tiny_volatility_model] in double precision: the time
    step and its square root are [1.0], the exponent is [2^-70], and its
    exponential rounds to [1.0]. *)
Lemma tiny_volatility_factors :
  Rounded.factors Rounded.binary64 tiny_volatility_model
  = Ok (Fin 1, Fin 1, Fin 1,
        Rounded.risk_neutral Rounded.binary64 (Fin 0.0625) (Fin 1) (Fin 1) (Fin 1)).
Proof.
  rewrite (rounded_factors_ok Rounded.binary64 tiny_volatility_model 2);
    [|simpl; lia | simpl; unfold Rounded.float_of_int64; by rewrite round64_2].
  assert (Rounded.fdiv Rounded.binary64 (time_to_maturity tiny_volatility_model) (Fin 2)
          = Fin 1) as ->.
  { simpl. destruct (Req_dec_T 2 0); [lra|].
    replace (2 / 2) with 1 by lra. apply round64_1. }
  change (volatility tiny_volatility_model) with (Fin (powerRZ 2 (-70))).
  pose proof (pow2_pos (-70)) as Hp.
  assert (Rounded.round64 (powerRZ 2 (-70)) = Fin (powerRZ 2 (-70))) as Hvol
    by (apply round64_pow2; lia).
  assert (Rounded.round64 (exp (powerRZ 2 (-70))) = Fin 1) as Hexp.
  { apply round64_just_above_1.
    assert (powerRZ 2 (-70) <= 1 / 2) as Hsmall.
    { replace (1 / 2) with (powerRZ 2 (-1)) by (simpl; lra). apply pow2_le. lia. }
    destruct (exp_small (powerRZ 2 (-70))) as [H1 H2]; [lra|].
    split; [lra|]. eapply Rlt_le_trans; [exact H2|].
    replace (2 * powerRZ 2 (-70)) with (powerRZ 2 (-69)).
    - pose proof (pow2_le (-69) (-53) ltac:(lia)). lra.
    - replace (-69)%Z with (1 + -70)%Z by lia. rewrite pow2_add.
      change (powerRZ 2 1) with (2 * 1). lra. }
  set (p := powerRZ 2 (-70)) in *.
  assert (Rounded.up_factor Rounded.binary64 (Fin p) (Fin 1) = Fin 1) as ->.
  { unfold Rounded.up_factor. simpl.
    destruct (Rlt_dec 1 0); [lra|]. rewrite sqrt_1, round64_1.
    by rewrite Rmult_1_r, Hvol. }
  assert (Rounded.down_factor Rounded.binary64 (Fin 1) = Fin 1) as ->.
  { unfold Rounded.down_factor. simpl. destruct (Req_dec_T 1 0); [lra|].
    replace (1 / 1) with 1 by lra. apply round64_1. }
  reflexivity.
Qed.

(** C9 as stated fails under rounding: with [time_to_maturity = 2],
    [steps = 2] and the volatility [2^-70 > 0], the factors computed in
    double precision are [u = d = 1.0], so neither [d < 1] nor [1 < u]
    holds. *)
Lemma tiny_volatility_factors_are_one :
  time_to_maturity tiny_volatility_model = Fin 2
  /\ volatility tiny_volatility_model = Fin (powerRZ 2 (-70))
  /\ 0 < powerRZ 2 (-70)
  /\ (1 <= steps tiny_volatility_model)%Z
  /\ exists dt u d q,
       Rounded.factors Rounded.binary64 tiny_volatility_model = Ok (dt, u, d, q)
       /\ u = Fin 1 /\ d = Fin 1
       /\ flt d (Fin 1) = false /\ flt (Fin 1) u = false.
Proof.
  split; [reflexivity|]. split; [reflexivity|]. split; [apply pow2_pos|].
  split; [simpl; lia|].
  eexists _, _, _, _. split; [apply tiny_volatility_factors|].
  split; [reflexivity|]. split; [reflexivity|]. split; float_cases.
Qed.

(** ** Sign of the prices under rounding *)

Lemma not_negative_pass_array (A : Rounded.arithmetic)
    (payoff : npfloat -> npfloat -> npfloat -> npfloat -> Z -> Z -> npfloat)
    (self : BinomialOptionPricing) (dt u d : npfloat) (q : R) (k : nat) :
  Rounded.float_laws A ->
  0 <= q <= 1 ->
  (forall K S0 u d n i, not_negative (payoff K S0 u d n i)) ->
  not_negative (nth k (Rounded.pass_array A payoff self dt u d (Fin q)) (Fin 0)).
Proof.
  intros HA Hq Hpay. apply (nth_Forall not_negative).
  - unfold Rounded.pass_array. apply inplace_induction_Forall.
    + intros x y. by apply not_negative_node_value.
    + float_cases.
    + unfold payoff_vector. apply Forall_fmap, Forall_forall. intros i _. apply Hpay.
  - float_cases.
Qed.

(** C5, as the code behaves: when the call returns and the risk-neutral
    probability it computed is a finite [q] in [[0,1]], neither price is
    negative.  Each is a finite value that is not negative, [+inf] or NaN;
    the last two arise when a factor or a node price overflows. *)
Theorem prices_not_negative_for_probability_in_range
    (A : Rounded.arithmetic) (self : BinomialOptionPricing)
    (dt u d : npfloat) (q : R) :
  Rounded.float_laws A ->
  succeeds (Rounded.run A self) ->
  Rounded.factors A self = Ok (dt, u, d, Fin q) ->
  0 <= q <= 1 ->
  exists c p,
    call_price (fst (Rounded.run A self)) = Some c
    /\ put_price (fst (Rounded.run A self)) = Some p
    /\ flt c (Fin 0) = false
    /\ flt p (Fin 0) = false.
Proof.
  intros HA Hok Hf Hq.
  destruct (rounded_run_succeeds A self Hok) as (dt' & u' & d' & q' & Hf' & _ & ->).
  rewrite Hf in Hf'. injection Hf' as <- <- <- <-.
  eexists _, _. split; [reflexivity|]. split; [reflexivity|].
  split; apply not_negative_pass_array; try done.
  - intros. apply not_negative_pymax0.
  - intros. apply not_negative_pymax0.
Qed.

(** When the factors are computed and there are two steps or more, the
    model of [run] returns. *)
Lemma rounded_run_returns (A : Rounded.arithmetic) (self : BinomialOptionPricing)
    (dt u d q : npfloat) :
  Rounded.factors A self = Ok (dt, u, d, q) ->
  (2 <= steps self)%Z ->
  succeeds (Rounded.run A self).
Proof.
  intros Hf Hn. exists tt. rewrite rounded_run_decompose, Hf.
  unfold Rounded.pricing.
  rewrite !(rounded_price_pass_ok A _ self dt u d q Hf) by lia.
  cbv beta iota zeta delta [bind].
  change 0%Z with (Z.of_nat 0).
  rewrite !(getitem_nth _ 0 (Fin 0)) by (rewrite length_rounded_pass_array; lia).
  cbv beta iota zeta.
  unfold Rounded.greeks.
  change 0%Z with (Z.of_nat 0).
  change 1%Z with (Z.of_nat 1). change 2%Z with (Z.of_nat 2).
  rewrite !(getitem_nth _ _ (Fin 0)) by (rewrite length_rounded_pass_array; lia).
  reflexivity.
Qed.

Lemma exact_run_succeeds (self : BinomialOptionPricing) :
  (2 <= steps self)%Z -> succeeds (Rounded.run Rounded.exact self).
Proof.
  intros Hn. rewrite exact_run. apply run_succeeds_iff. done.
Qed.

Lemma prices_not_negative_for_probability_in_range_witness :
  exists c p,
    call_price (fst (Rounded.run Rounded.exact zero_rate_model)) = Some c
    /\ put_price (fst (Rounded.run Rounded.exact zero_rate_model)) = Some p
    /\ flt c (Fin 0) = false
    /\ flt p (Fin 0) = false.
Proof.
  apply (prices_not_negative_for_probability_in_range Rounded.exact zero_rate_model
           (dt_of zero_rate_model) (u_of zero_rate_model) (d_of zero_rate_model)
           (Spec.q 1 0.2 0 2)).
  - apply exact_float_laws.
  - apply exact_run_succeeds. simpl. lia.
  - rewrite exact_factors, factors_ok by (simpl; lia). do 2 f_equal.
    apply (q_of_valid zero_rate_model 1 0.2 0); try reflexivity; try lra.
    simpl. lia.
  - apply zero_rate_probability.
Defined.

(** ** The put delta and the shared gamma *)

(** C4, as the code behaves: when the call returns, [put_delta] is the
    float [1 - call_delta], one subtraction rounded like any other, and
    [call_gamma] and [put_gamma] hold one and the same value.  This holds
    for every arithmetic.  Nothing is said of [put_delta + call_delta],
    which is a second rounded operation: it is NaN when the delta is, and
    in double precision [(1 - delta) + delta] differs from [1] for some
    finite [delta] ([binary64_complement_sum_not_one]). *)
Theorem put_delta_complements_call_delta
    (A : Rounded.arithmetic) (self : BinomialOptionPricing) :
  succeeds (Rounded.run A self) ->
  exists delta gamma,
    call_delta (fst (Rounded.run A self)) = Some delta
    /\ put_delta (fst (Rounded.run A self)) = Some (Rounded.fsub A (Fin 1) delta)
    /\ call_gamma (fst (Rounded.run A self)) = Some gamma
    /\ put_gamma (fst (Rounded.run A self)) = Some gamma.
Proof.
  intros Hok.
  destruct (rounded_run_succeeds A self Hok) as (dt & u & d & q & _ & _ & ->).
  by eexists _, _.
Qed.

Lemma put_delta_complements_call_delta_witness :
  exists delta gamma,
    call_delta (fst (Rounded.run Rounded.exact reference_model)) = Some delta
    /\ put_delta (fst (Rounded.run Rounded.exact reference_model))
       = Some (Rounded.fsub Rounded.exact (Fin 1) delta)
    /\ call_gamma (fst (Rounded.run Rounded.exact reference_model)) = Some gamma
    /\ put_gamma (fst (Rounded.run Rounded.exact reference_model)) = Some gamma.
Proof.
  apply (put_delta_complements_call_delta Rounded.exact reference_model).
  apply exact_run_succeeds. simpl. lia.
Defined.

(** In double precision [(1 - delta) + delta] is not always [1], even for
    a finite [delta]: with [delta = -(1/4 + 2^-53)] the subtraction rounds
    [5/4 + 2^-53] to [5/4], and adding [delta] back gives [1 - 2^-53]. *)
Lemma binary64_complement_sum_not_one :
  exists delta,
    Rounded.fadd Rounded.binary64
      (Rounded.fsub Rounded.binary64 (Fin 1) (Fin delta)) (Fin delta)
    = Fin (1 - powerRZ 2 (-53))
    /\ 1 - powerRZ 2 (-53) < 1.
Proof.
  pose proof (pow2_pos (-53)) as Ha.
  assert (powerRZ 2 (-53) * 9007199254740992 = 1) as Hinv.
  { change 9007199254740992 with (IZR (2 ^ Z.of_nat 53)).
    rewrite <- pow2_IZR, <- pow2_add. reflexivity. }
  assert (powerRZ 2 (0 - 52) = 2 * powerRZ 2 (-53)) as H52.
  { replace (0 - 52)%Z with (1 + -53)%Z by lia. rewrite pow2_add.
    change (powerRZ 2 1) with (2 * 1). lra. }
  assert (powerRZ 2 (-1 - 52) = powerRZ 2 (-53)) as H53 by (f_equal; lia).
  assert (powerRZ 2 (-1) = 1 / 2) as Hhalf by (simpl; lra).
  assert (powerRZ 2 (0 + 1) = 2) as Htwo by (simpl; lra).
  exists (- (1 / 4 + powerRZ 2 (-53))).
  set (a := powerRZ 2 (-53)) in *. split; [|lra].
  assert (Rounded.fsub Rounded.binary64 (Fin 1) (Fin (- (1 / 4 + a))) = Fin (5 / 4))
    as ->.
  { simpl. rewrite (round64_in_binade _ 0 5629499534213120).
    - f_equal. rewrite H52. lra.
    - lia.
    - rewrite Htwo. change (powerRZ 2 0) with 1. lra.
    - rewrite H52.
      replace ((1 - - (1 / 4 + a)) / (2 * a)) with (IZR 5629499534213120 + 1 / 2).
      + unfold Rounded.nearest_even.
        rewrite (Zfloor_eq 5629499534213120) by lra.
        destruct (Rlt_dec _ _); [lra|]. destruct (Rlt_dec _ _); [lra|].
        reflexivity.
      + apply Rmult_eq_reg_r with (2 * a); [|lra].
        unfold Rdiv at 2. rewrite Rmult_assoc, Rinv_l by lra. lra.
    - lia. }
  simpl. rewrite (round64_in_binade _ (-1) 9007199254740991).
  - f_equal. rewrite H53. fold a. lra.
  - lia.
  - rewrite Hhalf. change (powerRZ 2 (-1 + 1)) with 1. lra.
  - rewrite H53. fold a.
    replace ((5 / 4 + - (1 / 4 + a)) / a) with (IZR 9007199254740991).
    + apply nearest_even_IZR.
    + apply Rmult_eq_reg_r with a; [|lra].
      unfold Rdiv. rewrite Rmult_assoc, Rinv_l by lra. lra.
  - lia.
Qed.

(** ** Equal factors: the lattice degenerates under any rounding *)

Section Absorbing.
Variables (update : npfloat -> npfloat -> npfloat) (P : npfloat -> Prop).
Hypothesis Hupdate : forall x y, P x -> P y -> update x y = NaN.
Hypothesis HNaN : P NaN.
Hypothesis Hzero : P (Fin 0).

Lemma absorbing_level (v : list npfloat) (j : nat) :
  Forall P v ->
  inplace_level update (Fin 0) v j
  = fold_left (fun s i => <[i := NaN]> s) (seq 0 (j + 1)) v
  /\ Forall P (inplace_level update (Fin 0) v j).
Proof using Hupdate HNaN Hzero.
  intros Hv. unfold inplace_level.
  destruct (fold_left_ext_invariant (Forall P)
              (inplace_overwrite update (Fin 0))
              (fun s i => <[i := NaN]> s) (seq 0 (j + 1)) v) as [Heq Hinv];
    [| done | by rewrite Heq].
  intros i s _ Hs. split; [|by apply Forall_insert].
  unfold inplace_overwrite. by rewrite Hupdate by (by apply nth_Forall).
Qed.

Lemma absorbing_level_lookup (v : list npfloat) (j k : nat) :
  Forall P v -> (j + 1 <= length v)%nat ->
  inplace_level update (Fin 0) v j !! k
  = if decide (k < j + 1)%nat then Some NaN else v !! k.
Proof using Hupdate HNaN Hzero.
  intros Hv Hj. destruct (absorbing_level v j Hv) as [-> _].
  by apply (lookup_fold_insert (fun _ => NaN)).
Qed.

(** Every entry the induction overwrites ends as NaN. *)
Lemma absorbing_array (n : nat) (v : list npfloat) (k : nat) :
  length v = (n + 1)%nat -> Forall P v -> (k < n)%nat ->
  nth k (inplace_induction update (Fin 0) n v) (Fin 0) = NaN.
Proof using Hupdate HNaN Hzero.
  intros Hlen Hv Hk. apply nth_lookup_Some with (d := Fin 0).
  destruct n as [|n]; [lia|]. rewrite inplace_induction_S.
  destruct (absorbing_level v n Hv) as [_ Hv'].
  unfold inplace_induction.
  apply (fold_left_invariant
           (fun s => length s = length v /\ Forall P s
                     /\ forall i, (i < S n)%nat -> s !! i = Some NaN)).
  - intros j s Hj%elem_of_reverse%elem_of_seq0 (Hs & HP & Hnan).
    split; [by rewrite length_inplace_level|].
    split; [by apply absorbing_level|].
    intros i Hi. rewrite absorbing_level_lookup by (done || lia).
    destruct (decide (i < j + 1)%nat); [done | by apply Hnan].
  - split; [by rewrite length_inplace_level|]. split; [done|].
    intros i Hi. rewrite absorbing_level_lookup by (done || lia).
    destruct (decide (i < n + 1)%nat); [done | lia].
  - done.
Qed.
End Absorbing.

Section EqualFactors.
Variable A : Rounded.arithmetic.
Hypothesis HA : Rounded.float_laws A.

Lemma rounded_fmul_NaN_r (a : npfloat) : Rounded.fmul A a NaN = NaN.
Proof. by destruct a. Qed.

(** A probability that is not finite turns every node into NaN: one of
    its two weights is an infinity of each sign, or NaN. *)
Lemma rounded_node_value_nonfinite (r dt q up cur : npfloat) :
  nonfinite q -> not_negative up -> not_negative cur ->
  Rounded.node_value A r dt q up cur = NaN.
Proof.
  intros Hq Hup Hcur. unfold Rounded.node_value.
  assert (Rounded.fadd A (Rounded.fmul A q up)
            (Rounded.fmul A (Rounded.fsub A (Fin 1) q) cur) = NaN) as ->;
    [|apply rounded_fmul_NaN_r].
  destruct Hq as [-> | [-> | ->]];
    apply not_negative_cases in Hup as [-> | [-> | (x & -> & Hx)]];
    apply not_negative_cases in Hcur as [-> | [-> | (y & -> & Hy)]];
    simpl; try reflexivity; unfold Rsgn;
    repeat match goal with
           | |- context [Rlt_dec ?a ?b] => destruct (Rlt_dec a b)
           end; simpl; try reflexivity; lra.
Qed.

(** [u - d] rounds to zero when [u = d], and a division by zero gives an
    infinity or NaN. *)
Lemma rounded_risk_neutral_equal (r dt : npfloat) (x : R) :
  nonfinite (Rounded.risk_neutral A r dt (Fin x) (Fin x)).
Proof using HA.
  unfold Rounded.risk_neutral.
  assert (Rounded.fsub A (Fin x) (Fin x) = Fin 0) as ->.
  { simpl. replace (x - x) with 0 by lra. apply (Rounded.round_0 A HA). }
  destruct (Rounded.fsub A _ (Fin x)) as [y| | |]; simpl.
  - destruct (Req_dec_T 0 0); [apply inf_of_nonfinite | lra].
  - destruct (Rlt_dec 0 0); unfold nonfinite; auto.
  - destruct (Rlt_dec 0 0); unfold nonfinite; auto.
  - unfold nonfinite. auto.
Qed.

Lemma rounded_factors_q (self : BinomialOptionPricing) (dt u d q : npfloat) :
  Rounded.factors A self = Ok (dt, u, d, q) ->
  q = Rounded.risk_neutral A (interest_rate self) dt u d.
Proof.
  unfold Rounded.factors.
  destruct (Rounded.py_truediv A _ _) as [dt'|e]; [|done].
  cbv beta iota zeta delta [bind]. by intros [= <- <- <- <-].
Qed.

Lemma nonfinite_pass_array payoff (self : BinomialOptionPricing)
    (dt u d q : npfloat) (k : nat) :
  nonfinite q ->
  (forall K S0 u d n i, not_negative (payoff K S0 u d n i)) ->
  (k < Z.to_nat (steps self))%nat ->
  nth k (Rounded.pass_array A payoff self dt u d q) (Fin 0) = NaN.
Proof.
  intros Hq Hpay Hk. unfold Rounded.pass_array.
  apply (absorbing_array _ not_negative); try done.
  - intros x y. by apply rounded_node_value_nonfinite.
  - float_cases.
  - apply length_payoff_vector.
  - unfold payoff_vector. apply Forall_fmap, Forall_forall. intros i _. apply Hpay.
Qed.
End EqualFactors.

(** X18: any condition that makes the two factors equal degenerates the
    lattice, silently.  When the computed [u] and [d] are the same finite
    value (a zero volatility, or a positive one too small to move the
    exponential off [1.0]), [u - d] is zero, the probability is an
    infinity or NaN, and a call that returns has stored NaN in all six
    results.  This holds for every arithmetic that rounds zero to zero. *)
Theorem equal_factors_yield_nan (A : Rounded.arithmetic)
    (self : BinomialOptionPricing) (dt q : npfloat) (x : R) :
  Rounded.float_laws A ->
  Rounded.factors A self = Ok (dt, Fin x, Fin x, q) ->
  succeeds (Rounded.run A self) ->
  call_price (fst (Rounded.run A self)) = Some NaN
  /\ put_price (fst (Rounded.run A self)) = Some NaN
  /\ call_delta (fst (Rounded.run A self)) = Some NaN
  /\ put_delta (fst (Rounded.run A self)) = Some NaN
  /\ call_gamma (fst (Rounded.run A self)) = Some NaN
  /\ put_gamma (fst (Rounded.run A self)) = Some NaN.
Proof.
  intros HA Hf Hok.
  destruct (rounded_run_succeeds A self Hok) as (dt' & u' & d' & q' & Hf' & Hn & ->).
  rewrite Hf in Hf'. injection Hf' as <- <- <- <-.
  assert (nonfinite q) as Hq.
  { rewrite (rounded_factors_q A self _ _ _ _ Hf).
    by apply rounded_risk_neutral_equal. }
  assert (forall payoff k,
            (forall K S0 u d n i, not_negative (payoff K S0 u d n i)) ->
            (k < 2)%nat ->
            nth k (Rounded.pass_array A payoff self dt (Fin x) (Fin x) q) (Fin 0) = NaN)
    as Hnan.
  { intros payoff k Hpay Hk. apply nonfinite_pass_array; [done | done | lia]. }
  assert (forall K S0 u d n i, not_negative (Rounded.call_payoff A K S0 u d n i))
    as Hcall by (intros; apply not_negative_pymax0).
  assert (forall K S0 u d n i, not_negative (Rounded.put_payoff A K S0 u d n i))
    as Hput by (intros; apply not_negative_pymax0).
  rewrite (Hnan _ 0%nat Hcall), (Hnan _ 0%nat Hput), (Hnan _ 1%nat Hput) by lia.
  unfold Rounded.store_greeks, Rounded.delta_formula, Rounded.gamma_formula.
  simpl.
  by destruct (nth 2 (Rounded.pass_array A (Rounded.put_payoff A) self dt
                        (Fin x) (Fin x) q) (Fin 0)).
Qed.

Lemma equal_factors_yield_nan_witness :
  call_price (fst (Rounded.run Rounded.binary64 tiny_volatility_model)) = Some NaN
  /\ put_price (fst (Rounded.run Rounded.binary64 tiny_volatility_model)) = Some NaN
  /\ call_delta (fst (Rounded.run Rounded.binary64 tiny_volatility_model)) = Some NaN
  /\ put_delta (fst (Rounded.run Rounded.binary64 tiny_volatility_model)) = Some NaN
  /\ call_gamma (fst (Rounded.run Rounded.binary64 tiny_volatility_model)) = Some NaN
  /\ put_gamma (fst (Rounded.run Rounded.binary64 tiny_volatility_model)) = Some NaN.
Proof.
  apply (equal_factors_yield_nan Rounded.binary64 tiny_volatility_model (Fin 1)
           (Rounded.risk_neutral Rounded.binary64 (Fin 0.0625) (Fin 1) (Fin 1) (Fin 1))
           1).
  - apply binary64_float_laws.
  - apply tiny_volatility_factors.
  - apply (rounded_run_returns _ _ _ _ _ _ tiny_volatility_factors). simpl. lia.
Defined.

(** ** A NaN strike *)

Section NaNStrike.
Variable A : Rounded.arithmetic.
Hypothesis HA : Rounded.float_laws A.

Lemma zero_or_nan_fmul (a b : npfloat) :
  zero_or_nan b -> zero_or_nan (Rounded.fmul A a b).
Proof using HA.
  intros [-> | ->]; [|right; apply rounded_fmul_NaN_r].
  destruct a as [x| | |]; simpl.
  - left. rewrite Rmult_0_r. apply (Rounded.round_0 A HA).
  - right. unfold Rsgn. destruct (Rlt_dec 0 0); [lra | done].
  - right. unfold Rsgn. destruct (Rlt_dec 0 (- 0)); [lra|].
    destruct (Rlt_dec (- 0) 0); [lra | done].
  - by right.
Qed.

Lemma zero_or_nan_fadd (a b : npfloat) :
  zero_or_nan a -> zero_or_nan b -> zero_or_nan (Rounded.fadd A a b).
Proof using HA.
  intros [-> | ->] [-> | ->]; simpl; try (by right).
  left. rewrite Rplus_0_r. apply (Rounded.round_0 A HA).
Qed.

Lemma zero_or_nan_node_value (r dt q up cur : npfloat) :
  zero_or_nan up -> zero_or_nan cur ->
  zero_or_nan (Rounded.node_value A r dt q up cur).
Proof using HA.
  intros Hup Hcur. unfold Rounded.node_value.
  apply zero_or_nan_fmul, zero_or_nan_fadd; by apply zero_or_nan_fmul.
Qed.

(** [max(0, nan)] is [0]: with a NaN strike every terminal payoff is
    zero. *)
Lemma payoff_NaN_strike (S0 u d : npfloat) (n i : Z) :
  Rounded.call_payoff A NaN S0 u d n i = Fin 0
  /\ Rounded.put_payoff A NaN S0 u d n i = Fin 0.
Proof.
  unfold Rounded.call_payoff, Rounded.put_payoff.
  by destruct (Rounded.fmul A _ _).
Qed.

Lemma zero_or_nan_pass_array payoff (self : BinomialOptionPricing)
    (dt u d q : npfloat) (k : nat) :
  (forall i, payoff (strike self) (current_price self) u d (steps self) i = Fin 0) ->
  zero_or_nan (nth k (Rounded.pass_array A payoff self dt u d q) (Fin 0)).
Proof using HA.
  intros Hpay. apply (nth_Forall zero_or_nan); [|by left].
  unfold Rounded.pass_array. apply inplace_induction_Forall.
  - intros x y. apply zero_or_nan_node_value.
  - by left.
  - unfold payoff_vector. apply Forall_fmap, Forall_forall. intros i _.
    left. apply Hpay.
Qed.
End NaNStrike.

(** X16: a NaN strike does not surface as a price.  Python's
    [max(0, nan)] is [0], so both terminal payoff vectors are zero, and the
    two prices a call stores are zero or NaN (NaN when a factor, the
    probability or the discount factor is not finite), whatever the other
    parameters are and whatever rounding does. *)
Theorem nan_strike_price_zero_or_nan (A : Rounded.arithmetic)
    (self : BinomialOptionPricing) :
  Rounded.float_laws A ->
  strike self = NaN ->
  succeeds (Rounded.run A self) ->
  exists c p,
    call_price (fst (Rounded.run A self)) = Some c
    /\ put_price (fst (Rounded.run A self)) = Some p
    /\ (c = Fin 0 \/ c = NaN)
    /\ (p = Fin 0 \/ p = NaN).
Proof.
  intros HA HK Hok.
  destruct (rounded_run_succeeds A self Hok) as (dt & u & d & q & Hf & Hn & ->).
  eexists _, _. split; [reflexivity|]. split; [reflexivity|].
  split; apply (zero_or_nan_pass_array A HA); intros i; rewrite HK;
    apply payoff_NaN_strike.
Qed.

Lemma nan_strike_price_zero_or_nan_witness :
  exists c p,
    call_price (fst (Rounded.run Rounded.exact nan_strike_model)) = Some c
    /\ put_price (fst (Rounded.run Rounded.exact nan_strike_model)) = Some p
    /\ (c = Fin 0 \/ c = NaN)
    /\ (p = Fin 0 \/ p = NaN).
Proof.
  apply (nan_strike_price_zero_or_nan Rounded.exact nan_strike_model).
  - apply exact_float_laws.
  - reflexivity.
  - apply exact_run_succeeds. simpl. lia.
Defined.

(** * Further properties of the pricing methods *)

(** ** Outcome of a call *)

Lemma calculate_prices_negative (self : BinomialOptionPricing) :
  (steps self <= -2)%Z -> calculate_prices self = (self, Raise ValueError).
Proof.
  intros Hn. rewrite calculate_prices_decompose, factors_ok, pricing_negative by lia.
  reflexivity.
Qed.

Lemma calculate_prices_minus_one (self : BinomialOptionPricing) :
  steps self = (-1)%Z -> calculate_prices self = (self, Raise IndexError).
Proof.
  intros Hn. rewrite calculate_prices_decompose, factors_ok, pricing_minus_one by lia.
  reflexivity.
Qed.

Lemma steps_exception_cases (n : Z) :
  (n < 2)%Z ->
  (n = 1 /\ steps_exception n = IndexError)%Z
  \/ (n = 0 /\ steps_exception n = ZeroDivisionError)%Z
  \/ (n = -1 /\ steps_exception n = IndexError)%Z
  \/ (n <= -2 /\ steps_exception n = ValueError)%Z.
Proof.
  intros Hn. unfold steps_exception.
  destruct (Z.eqb_spec n 1); [auto|].
  destruct (Z.eqb_spec n 0); [auto|].
  destruct (Z.eqb_spec n (-1)); [auto 6|].
  right. right. right. split; [lia | done].
Qed.




(** ** What a call changes on the instance *)

Lemma store_parameters (self : BinomialOptionPricing) (c p delta gamma : npfloat) :
  same_parameters (store_prices c p self) self
  /\ same_parameters (store_greeks delta gamma (store_prices c p self)) self.
Proof. by repeat split. Qed.

Lemma same_parameters_refl (self : BinomialOptionPricing) : same_parameters self self.
Proof. by repeat split. Qed.

(** X2: No call writes to the six attributes set by [__init__], whether it
    returns or raises. *)
Theorem parameters_preserved (self : BinomialOptionPricing) :
  same_parameters (fst (run self)) self
  /\ same_parameters (fst (calculate_prices self)) self.
Proof.
  rewrite run_decompose, calculate_prices_decompose.
  destruct (factors self) as [[[[dt u] d] q]|e];
    [|split; apply same_parameters_refl].
  destruct (pricing self) as [[[c p] a]|e];
    [|split; apply same_parameters_refl].
  destruct (greeks (current_price self) u d a) as [[delta gamma]|e]; simpl.
  - split; apply store_parameters.
  - split; [apply (store_parameters self c p (Fin 0) (Fin 0))
           | apply same_parameters_refl].
Qed.

(** X3: [calculate_prices] is all or nothing: when it raises, the instance is
    exactly as before the call; when it returns, the pair it returns is
    the pair of prices it has stored, and the four Greeks are stored. *)
Theorem calculate_prices_all_or_nothing (self : BinomialOptionPricing) :
  (forall e, snd (calculate_prices self) = Raise e ->
     fst (calculate_prices self) = self)
  /\ (forall c p, snd (calculate_prices self) = Ok (c, p) ->
        call_price (fst (calculate_prices self)) = Some c
        /\ put_price (fst (calculate_prices self)) = Some p
        /\ exists delta gamma,
             call_delta (fst (calculate_prices self)) = Some delta
             /\ put_delta (fst (calculate_prices self)) = Some (fsub (Fin 1) delta)
             /\ call_gamma (fst (calculate_prices self)) = Some gamma
             /\ put_gamma (fst (calculate_prices self)) = Some gamma).
Proof.
  rewrite calculate_prices_decompose.
  destruct (factors self) as [[[[dt u] d] q]|e]; [|by split].
  destruct (pricing self) as [[[c p] a]|e]; [|by split].
  destruct (greeks (current_price self) u d a) as [[delta gamma]|e]; simpl;
    [|by split].
  split; [done|]. intros c' p' [= <- <-].
  split; [done|]. split; [done|]. by exists delta, gamma.
Qed.

(** X4: [run] is not all or nothing: when it raises it has stored nothing,
    except on a
    one-step lattice, where the two prices are stored and the Greeks are
    left as they were. *)
Theorem run_partial_update (self : BinomialOptionPricing) (e : exn) :
  snd (run self) = Raise e ->
  (steps self <> 1%Z -> fst (run self) = self)
  /\ (steps self = 1%Z ->
        (exists c p, call_price (fst (run self)) = Some c
                     /\ put_price (fst (run self)) = Some p)
        /\ call_delta (fst (run self)) = call_delta self
        /\ put_delta (fst (run self)) = put_delta self
        /\ call_gamma (fst (run self)) = call_gamma self
        /\ put_gamma (fst (run self)) = put_gamma self).
Proof.
  intros He.
  assert (steps self < 2)%Z as Hn.
  { destruct (Z_lt_le_dec (steps self) 2) as [|Hge]; [done|].
    by rewrite run_returns in He. }
  split.
  - intros H1.
    destruct (steps_exception_cases (steps self) Hn)
      as [[H _] | [[H _] | [[H _] | [H _]]]]; [done | | |].
    + by rewrite run_zero_steps.
    + by rewrite run_minus_one.
    + by rewrite run_negative.
  - intros H1. rewrite run_single_step by done. simpl.
    split; [by eexists _, _ | done].
Qed.

Lemma run_partial_update_witness :
  (steps single_step_model <> 1%Z -> fst (run single_step_model) = single_step_model)
  /\ (steps single_step_model = 1%Z ->
        (exists c p, call_price (fst (run single_step_model)) = Some c
                     /\ put_price (fst (run single_step_model)) = Some p)
        /\ call_delta (fst (run single_step_model)) = call_delta single_step_model
        /\ put_delta (fst (run single_step_model)) = put_delta single_step_model
        /\ call_gamma (fst (run single_step_model)) = call_gamma single_step_model
        /\ put_gamma (fst (run single_step_model)) = put_gamma single_step_model).
Proof.
  apply (run_partial_update single_step_model IndexError).
  by rewrite run_single_step.
Defined.

(** ** Repeated calls *)

Lemma pricing_same_parameters (a b : BinomialOptionPricing) :
  same_parameters a b ->
  factors a = factors b /\ pricing a = pricing b.
Proof.
  intros (HT & HK & HS & Hv & Hr & Hn).
  unfold pricing, call_pass, put_pass, price_pass, factors.
  by rewrite HT, HK, HS, Hv, Hr, Hn.
Qed.

(** X5: The results of a call are a function of the six parameters only: two
    instances with the same parameters, whatever earlier calls have left
    on them, end with the same outcome and, when the call returns, with
    the same six results. *)
Theorem results_depend_on_parameters_only (a b : BinomialOptionPricing) :
  same_parameters a b ->
  snd (run a) = snd (run b)
  /\ snd (calculate_prices a) = snd (calculate_prices b)
  /\ (succeeds (run a) ->
        call_price (fst (run a)) = call_price (fst (run b))
        /\ put_price (fst (run a)) = put_price (fst (run b))
        /\ call_delta (fst (run a)) = call_delta (fst (run b))
        /\ put_delta (fst (run a)) = put_delta (fst (run b))
        /\ call_gamma (fst (run a)) = call_gamma (fst (run b))
        /\ put_gamma (fst (run a)) = put_gamma (fst (run b))).
Proof.
  intros Hab. destruct (pricing_same_parameters a b Hab) as [Hf Hp].
  destruct Hab as (_ & _ & HS & _).
  rewrite !run_decompose, !calculate_prices_decompose, <- Hf, <- Hp, <- HS.
  destruct (factors a) as [[[[dt u] d] q]|e];
    [|split; [done|]; split; [done|]; by intros [? ?]].
  destruct (pricing a) as [[[c p] v]|e];
    [|split; [done|]; split; [done|]; by intros [? ?]].
  destruct (greeks (current_price a) u d v) as [[delta gamma]|e]; simpl.
  - split; [done|]. split; [done|]. intros _. by repeat split.
  - split; [done|]. split; [done|]. by intros [? ?].
Qed.

Lemma results_depend_on_parameters_only_witness :
  snd (run (fst (run reference_model))) = snd (run reference_model)
  /\ snd (calculate_prices (fst (run reference_model)))
     = snd (calculate_prices reference_model).
Proof.
  destruct (results_depend_on_parameters_only (fst (run reference_model))
              reference_model) as (H1 & H2 & _).
  - rewrite run_returns by (simpl; lia). by repeat split.
  - split; [exact H1 | exact H2].
Defined.

(** X6: Calling [run] again on the instance it has left changes nothing: same
    outcome, same instance; the same holds for [run] after
    [calculate_prices]. *)
Theorem run_idempotent (self : BinomialOptionPricing) :
  run (fst (run self)) = run self
  /\ run (fst (calculate_prices self)) = run self.
Proof.
  destruct (Z_lt_le_dec (steps self) 2) as [Hn|Hn].
  - destruct (steps_exception_cases (steps self) Hn)
      as [[H _] | [[H _] | [[H _] | [H _]]]].
    + rewrite calculate_prices_single_step by done. split; [|done].
      rewrite (run_single_step self) by done. simpl fst.
      rewrite (run_single_step (priced self)) by done. reflexivity.
    + rewrite calculate_prices_zero_steps, (run_zero_steps self) by done. simpl fst.
      by rewrite (run_zero_steps self).
    + rewrite calculate_prices_minus_one, (run_minus_one self) by done. simpl fst.
      by rewrite (run_minus_one self).
    + rewrite calculate_prices_negative, (run_negative self) by done. simpl fst.
      by rewrite (run_negative self).
  - rewrite calculate_prices_returns, (run_returns self) by done. simpl fst.
    rewrite (run_returns (finished self)) by done. split; reflexivity.
Qed.

(** ** Outcome of the sweep *)






(** ** The lattice on the reference parameters *)



(** ** Values outside the data model *)






